(** * GRE vocabulary guide generator: extractor and renderer

    A shallow embedding of [generate_vocab_guide.py] and the properties of
    its extractor ([clean_response_text], [parse_response], the loop of
    [main] over the responses), of its renderer ([generate_html]) and of
    [parse_vocab_entry], which nothing calls.

    How the program is modelled.
    - A Python [str] is a [list ascii], the text as 8-bit characters (its
      UTF-8 bytes).  The character classes of [re] and of [str.strip],
      [str.lower] and [str.title] are those of the ASCII range: whitespace
      is the codes 9 to 13 and 28 to 32, a decimal digit is [0] to [9], a
      letter is one of the 52 ASCII letters.  A character above 127 is in
      none of the classes and has no case.  Python knows whitespace, digits
      and cased letters outside ASCII, and under [re.IGNORECASE] lets
      [[a-zA-Z]] and the letters [i], [s], [k] of a literal match U+0130,
      U+0131, U+017F and U+212A: texts that hold such characters are
      outside this model.
    - [None] is [None]: a string that may be unset is an [option str].
    - [int] is unbounded and group numbers are [N]; the bound that the
      interpreter may set on the number of digits [int] converts is not
      modelled.
    - What can raise in Python ([int], indexing, a method of [None])
      returns in the error monad [result]; the loop [while] runs on fuel.
    - [re] is a backtracking matcher over the syntax of the program's
      patterns: character classes, greedy and lazy repetition of a class,
      sequence, alternation, greedy option, capturing groups, negative
      lookahead, [^] and [$].
    - A dict from group numbers is a function to [option]; the set of seen
      numbers is a list, read by membership only. *)

From Stdlib Require Import Ascii String Bool Arith NArith Lia DecimalString
  Permutation List.
Import ListNotations.

Local Open Scope list_scope.
Local Open Scope bool_scope.

(** ** Strings *)

Definition str := list ascii.

Definition chars (s : string) : str := list_ascii_of_string s.

Definition code (c : ascii) : nat := nat_of_ascii c.

Definition in_range (lo hi : nat) (c : ascii) : bool :=
  (lo <=? code c) && (code c <=? hi).

(** [str.isspace] on the ASCII range, also the class [\s]. *)
Definition is_space (c : ascii) : bool :=
  in_range 9 13 c || in_range 28 32 c.

(** The class [\d]. *)
Definition is_digit (c : ascii) : bool := in_range 48 57 c.

Definition is_upper (c : ascii) : bool := in_range 65 90 c.
Definition is_lower (c : ascii) : bool := in_range 97 122 c.

(** The class [[a-zA-Z]] (with or without [re.IGNORECASE]). *)
Definition is_alpha (c : ascii) : bool := is_upper c || is_lower c.

(** The class [.] (no [re.DOTALL]): anything but a newline. *)
Definition newline : ascii := ascii_of_nat 10.
Definition is_dot (c : ascii) : bool := negb (Ascii.eqb c newline).

Definition lower_char (c : ascii) : ascii :=
  if is_upper c then ascii_of_nat (code c + 32) else c.

Definition upper_char (c : ascii) : ascii :=
  if is_lower c then ascii_of_nat (code c - 32) else c.

(** [str.lower] *)
Definition lower (s : str) : str := map lower_char s.

(** A literal character of a pattern, and the same under [re.IGNORECASE]. *)
Definition is_char (c : ascii) : ascii -> bool := Ascii.eqb c.
Definition is_char_i (c : ascii) : ascii -> bool :=
  fun x => Ascii.eqb (lower_char x) (lower_char c).

Fixpoint lstrip_by (p : ascii -> bool) (s : str) : str :=
  match s with
  | c :: s' => if p c then lstrip_by p s' else s
  | [] => []
  end.

Definition rstrip_by (p : ascii -> bool) (s : str) : str :=
  rev (lstrip_by p (rev s)).

(** [s.strip()] *)
Definition strip (s : str) : str := rstrip_by is_space (lstrip_by is_space s).

(** [s.rstrip('.')] *)
Definition rstrip_dot (s : str) : str := rstrip_by (is_char ".") s.

(** [s.startswith(p)] *)
Fixpoint startswith (p s : str) : bool :=
  match p, s with
  | [], _ => true
  | a :: p', b :: s' => Ascii.eqb a b && startswith p' s'
  | _ :: _, [] => false
  end.

(** [s.split(sep)] for a one-character separator: never the empty list. *)
Fixpoint split_on (sep : ascii) (s : str) : list str :=
  match s with
  | [] => [[]]
  | c :: s' =>
      if Ascii.eqb c sep then [] :: split_on sep s'
      else match split_on sep s' with
           | l :: ls => (c :: l) :: ls
           | [] => [[c]]
           end
  end.

(** [s.replace(old, new)] for a one-character [old]. *)
Definition replace (old : ascii) (new : str) (s : str) : str :=
  flat_map (fun c => if Ascii.eqb c old then new else [c]) s.

(** [s.title()]: a cased character is upper-cased after an uncased one and
    lower-cased after a cased one.  Cased characters are the ASCII letters. *)
Fixpoint title_from (prev_cased : bool) (s : str) : str :=
  match s with
  | [] => []
  | c :: s' =>
      (if prev_cased then lower_char c else upper_char c)
        :: title_from (is_alpha c) s'
  end.

Definition title (s : str) : str := title_from false s.

(** ** Errors *)

Inductive exn := IndexError | ValueError | TypeError | AttributeError.

Inductive result (A : Type) :=
| Ok (a : A)
| Raise (e : exn)
| OutOfFuel.
Arguments Ok {A} a.
Arguments Raise {A} e.
Arguments OutOfFuel {A}.

Definition bind {A B} (m : result A) (f : A -> result B) : result B :=
  match m with
  | Ok a => f a
  | Raise e => Raise e
  | OutOfFuel => OutOfFuel
  end.

Notation "x <- m ;; k" := (bind m (fun x => k))
  (at level 61, m at next level, right associativity).

Definition of_option {A} (e : exn) (o : option A) : result A :=
  match o with Some a => Ok a | None => Raise e end.

(** ** Regular expressions *)

Module Re.

Inductive regex :=
| Eps
| Cls (p : ascii -> bool)                  (* one character of a class *)
| Many (greedy : bool) (p : ascii -> bool) (* p*  and  p*? *)
| Seq (r1 r2 : regex)
| Alt (r1 r2 : regex)                      (* r1|r2 *)
| Opt (r : regex)                          (* r? *)
| Grp (n : nat) (r : regex)                (* the n-th capturing group *)
| NotAhead (r : regex)                     (* (?!r) *)
| Bol (multiline : bool)                   (* ^ *)
| Eol.                                     (* $, no re.MULTILINE *)

(** [p+] and [p+?] *)
Definition Many1 (greedy : bool) (p : ascii -> bool) : regex :=
  Seq (Cls p) (Many greedy p).

Fixpoint seq_of (cls : ascii -> ascii -> bool) (s : str) : regex :=
  match s with
  | [] => Eps
  | [c] => Cls (cls c)
  | c :: s' => Seq (Cls (cls c)) (seq_of cls s')
  end.

(** A literal string, and the same under [re.IGNORECASE]. *)
Definition Lit (s : string) : regex := seq_of is_char (chars s).
Definition LitI (s : string) : regex := seq_of is_char_i (chars s).

(** The matcher's position: the text before it (reversed), the text after
    it, and the groups captured so far. *)
Record mstate := MState {
  before : str;
  after : str;
  caps : list (nat * str)
}.

Definition start_at (b a : str) : mstate := MState b a [].

Definition group (n : nat) (st : mstate) : option str :=
  match find (fun kv => Nat.eqb (fst kv) n) (caps st) with
  | Some kv => Some (snd kv)
  | None => None
  end.

(** The text between two positions of one subject. *)
Definition consumed (st st' : mstate) : str :=
  firstn (length (after st) - length (after st')) (after st).

Definition set_group (n : nat) (st st' : mstate) : mstate :=
  MState (before st') (after st') ((n, consumed st st') :: caps st').

Definition at_bol (multiline : bool) (st : mstate) : bool :=
  match before st with
  | [] => true
  | c :: _ => multiline && Ascii.eqb c newline
  end.

(** [$] matches at the end and before a newline that ends the subject. *)
Definition at_eol (st : mstate) : bool :=
  match after st with
  | [] => true
  | [c] => Ascii.eqb c newline
  | _ => false
  end.

Definition orelse {A} (x : option A) (y : unit -> option A) : option A :=
  match x with Some a => Some a | None => y tt end.

(** [p*] (greedy: the longest run first) and [p*?] (lazy: the shortest
    first), then [k]. *)
Fixpoint many (p : ascii -> bool) (greedy : bool) (b a : str)
    (cs : list (nat * str)) (k : mstate -> option mstate) : option mstate :=
  let more (_ : unit) :=
    match a with
    | c :: a' => if p c then many p greedy (c :: b) a' cs k else None
    | [] => None
    end in
  let stop (_ : unit) := k (MState b a cs) in
  if greedy then orelse (more tt) stop else orelse (stop tt) more.

(** [exec r st k]: match [r] at [st], then go on with [k]; alternatives are
    tried in the order of Python's backtracking. *)
Fixpoint exec (r : regex) (st : mstate) (k : mstate -> option mstate)
    : option mstate :=
  match r with
  | Eps => k st
  | Cls p =>
      match after st with
      | c :: a' => if p c then k (MState (c :: before st) a' (caps st)) else None
      | [] => None
      end
  | Many g p => many p g (before st) (after st) (caps st) k
  | Seq r1 r2 => exec r1 st (fun st1 => exec r2 st1 k)
  | Alt r1 r2 => orelse (exec r1 st k) (fun _ => exec r2 st k)
  | Opt r1 => orelse (exec r1 st k) (fun _ => k st)
  | Grp n r1 => exec r1 st (fun st1 => k (set_group n st st1))
  | NotAhead r1 =>
      match exec r1 st Some with
      | Some _ => None
      | None => k st
      end
  | Bol m => if at_bol m st then k st else None
  | Eol => if at_eol st then k st else None
  end.

(** Right-nested sequence of the parts of a pattern. *)
Fixpoint cat (rs : list regex) : regex :=
  match rs with
  | [] => Eps
  | [r] => r
  | r :: rs' => Seq r (cat rs')
  end.

(** [re.match(r, s)] *)
Definition rmatch (r : regex) (s : str) : option mstate :=
  exec r (start_at [] s) Some.

(** [re.search(r, s)]: the first position, from the left, with a match. *)
Fixpoint search_from (r : regex) (b a : str) : option mstate :=
  match exec r (start_at b a) Some with
  | Some st => Some st
  | None =>
      match a with
      | [] => None
      | c :: a' => search_from r (c :: b) a'
      end
  end.

Definition search (r : regex) (s : str) : option mstate := search_from r [] s.

(** Number of characters a match that started before [a] went through. *)
Definition advanced (a : str) (st : mstate) : nat :=
  length a - length (after st).

Definition push {A B} (x : A) (r : list A * B) : list A * B :=
  (x :: fst r, snd r).

(** The successive non-overlapping matches of [r], as [re.sub] and
    [re.split] find them: each with the text since the end of the match
    before it, and last the text after the last match.  [skip] counts the
    characters of a match still to pass, [seg] is the text since the last
    match, reversed.  After an empty match the next search must advance:
    at the same position only a non-empty match is taken. *)
Fixpoint scan (r : regex) (b a : str) (skip : nat) (seg : str)
    : list (str * mstate) * str :=
  match skip, a with
  | S n, c :: a' => scan r (c :: b) a' n seg
  | S _, [] => ([], rev seg)
  | 0, _ =>
      match exec r (start_at b a) Some with
      | None =>
          match a with
          | [] => ([], rev seg)
          | c :: a' => scan r (c :: b) a' 0 (c :: seg)
          end
      | Some st =>
          match advanced a st, a with
          | S n, c :: a' => push (rev seg, st) (scan r (c :: b) a' n [])
          | S _, [] => ([(rev seg, st)], [])
          | 0, [] => ([(rev seg, st)], [])
          | 0, c :: a' =>
              let nonempty st' :=
                if advanced a st' =? 0 then None else Some st' in
              match exec r (start_at b a) nonempty with
              | Some st2 =>
                  push (rev seg, st)
                    (push ([], st2)
                       (scan r (c :: b) a' (advanced a st2 - 1) []))
              | None => push (rev seg, st) (scan r (c :: b) a' 0 [c])
              end
          end
      end
  end.

(** [re.sub(r, repl, s)] for a replacement without group references. *)
Definition sub (r : regex) (repl : str) (s : str) : str :=
  let found := scan r [] s 0 [] in
  flat_map (fun m => fst m ++ repl) (fst found) ++ snd found.

(** [re.split(r, s)] for a pattern with [ngroups] capturing groups: the
    texts between the matches, each match leaving its groups in between
    ([None] for a group that took no part in the match). *)
Definition split (r : regex) (ngroups : nat) (s : str) : list (option str) :=
  let found := scan r [] s 0 [] in
  flat_map (fun m => Some (fst m) :: map (fun i => group i (snd m)) (seq 1 ngroups))
           (fst found)
  ++ [Some (snd found)].

(** What a match is, without the order of the search: [Sem r st st'] when
    [r] can take the matcher from [st] to [st']. *)
Fixpoint Sem (r : regex) (st st' : mstate) : Prop :=
  match r with
  | Eps => st' = st
  | Cls p =>
      exists c a', after st = c :: a' /\ p c = true
                   /\ st' = MState (c :: before st) a' (caps st)
  | Many _ p =>
      exists w a', after st = w ++ a' /\ forallb p w = true
                   /\ st' = MState (rev w ++ before st) a' (caps st)
  | Seq r1 r2 => exists mid, Sem r1 st mid /\ Sem r2 mid st'
  | Alt r1 r2 => Sem r1 st st' \/ Sem r2 st st'
  | Opt r1 => Sem r1 st st' \/ st' = st
  | Grp n r1 => exists mid, Sem r1 st mid /\ st' = set_group n st mid
  | NotAhead r1 => st' = st /\ forall x, ~ Sem r1 st x
  | Bol m => st' = st /\ at_bol m st = true
  | Eol => st' = st /\ at_eol st = true
  end.

End Re.

Import Re.

(** ** The extractor *)

(** *** [clean_response_text] *)

Definition dot : regex := Cls (is_char ".").
Definition spaces : regex := Many true is_space.          (* \s* *)
Definition lazy_any : regex := Many false is_dot.         (* .*? *)

(** The patterns of [patterns_to_remove], all under
    [re.IGNORECASE | re.MULTILINE]. *)
Definition patterns_to_remove : list regex :=
  [ cat [Bol true; LitI "Of course"; Opt dot; spaces];
    cat [Bol true; LitI "Absolutely"; Opt dot; spaces];
    cat [Bol true; LitI "No problem"; Opt dot; spaces];
    cat [Bol true; LitI "You got it"; Opt dot; spaces];
    cat [Bol true; LitI "Sure"; Opt dot; spaces];
    cat [Bol true; LitI "Certainly"; Opt dot; spaces];
    cat [Bol true; LitI "Here "; Alt (LitI "is") (LitI "are"); LitI " ";
         lazy_any; Cls (is_char ":"); spaces];
    cat [Bol true; LitI "Let's continue"; lazy_any; dot; spaces];
    cat [Bol true; LitI "Let's keep going"; lazy_any; dot; spaces];
    cat [Bol true; LitI "Let's pick up where we left off"; lazy_any; dot;
         spaces];
    cat [Bol true; LitI "My apologies"; lazy_any; dot; spaces];
    cat [Bol true; LitI "Apologies for"; lazy_any; dot; spaces] ].

Definition clean_response_text (text : str) : str :=
  strip (fold_left (fun t pattern => sub pattern [] t) patterns_to_remove text).

(** *** The patterns of [parse_response] *)

(** [Group\s+(\d+)] *)
Definition group_pattern : regex :=
  cat [Lit "Group"; Many1 true is_space; Grp 1 (Many1 true is_digit)].

(** [[a-zA-Z]+(?:\s+[a-zA-Z]+)?] *)
Definition word_tokens : regex :=
  Seq (Many1 true is_alpha)
      (Opt (Seq (Many1 true is_space) (Many1 true is_alpha))).

(** [^([a-zA-Z]+(?:\s+[a-zA-Z]+)?)\s*-\s*Mnemonic:\s*(.+)$], IGNORECASE *)
Definition word_mnemonic_re : regex :=
  cat [Bol false; Grp 1 word_tokens; spaces; Cls (is_char "-"); spaces;
       LitI "Mnemonic:"; spaces; Grp 2 (Many1 true is_dot); Eol].

(** [^([a-zA-Z]+(?:\s+[a-zA-Z]+)?)\s*-\s*(?!Mnemonic)(.+)$], IGNORECASE *)
Definition word_def_re : regex :=
  cat [Bol false; Grp 1 word_tokens; spaces; Cls (is_char "-"); spaces;
       NotAhead (LitI "Mnemonic"); Grp 2 (Many1 true is_dot); Eol].

(** [Definition:\s*(.+?)\.?$], IGNORECASE *)
Definition def_tail_re : regex :=
  cat [LitI "Definition:"; spaces; Grp 1 (Many1 false is_dot); Opt dot; Eol].

(** [\s*Definition:.*$], IGNORECASE *)
Definition def_cut_re : regex :=
  cat [spaces; LitI "Definition:"; Many true is_dot; Eol].

(** [^mnemonic:\s*] and [^definition:\s*], IGNORECASE *)
Definition mnemonic_prefix_re : regex :=
  cat [Bol false; LitI "mnemonic:"; spaces].
Definition definition_prefix_re : regex :=
  cat [Bol false; LitI "definition:"; spaces].

(** *** Data *)

Record VocabEntry := Entry {
  word : str;
  mnemonic : str;
  definition : str
}.

Record VocabGroup := Group {
  number : N;
  entries : list VocabEntry
}.

(** The line loop's variables: [entries] and the entry in progress. *)
Record cursor := Cursor {
  cur_entries : list VocabEntry;
  current_word : option str;
  current_mnemonic : option str;
  current_definition : option str
}.

(** Truth value of a string that may be [None]. *)
Definition truthy (o : option str) : bool :=
  match o with
  | Some (_ :: _) => true
  | _ => false
  end.

(** [x or ''] *)
Definition or_empty (o : option str) : str :=
  match o with
  | Some s => s
  | None => []
  end.

(** The dict appended to [entries] for the entry in progress. *)
Definition current_entry (c : cursor) : VocabEntry :=
  Entry (or_empty (current_word c)) (or_empty (current_mnemonic c))
        (or_empty (current_definition c)).

(** [current_word and (current_definition or current_mnemonic)] *)
Definition worth_saving (c : cursor) : bool :=
  truthy (current_word c)
  && (truthy (current_definition c) || truthy (current_mnemonic c)).

(** [if current_word and (...): entries.append({...})] *)
Definition save_if_worth (c : cursor) : list VocabEntry :=
  if worth_saving c then cur_entries c ++ [current_entry c] else cur_entries c.

(** [m.group(n).strip()]: a group that took no part is [None], which has
    no [strip]. *)
Definition group_strip (n : nat) (m : mstate) : result str :=
  g <- of_option AttributeError (group n m) ;; Ok (strip g).

Definition is_none {A} (o : option A) : bool :=
  match o with None => true | Some _ => false end.

(** One turn of [for line in lines]. *)
Definition process_line (c : cursor) (line0 : str) : result cursor :=
  let line := strip line0 in
  match line with
  | [] => Ok c                                           (* continue *)
  | _ :: _ =>
      let word_mnemonic_match := rmatch word_mnemonic_re line in
      let word_def_match := rmatch word_def_re line in
      match word_mnemonic_match with
      | Some m =>
          let entries := save_if_worth c in
          w <- group_strip 1 m ;;
          mnemonic_and_maybe_def <- group_strip 2 m ;;
          match search def_tail_re mnemonic_and_maybe_def with
          | Some def_match =>
              d <- group_strip 1 def_match ;;
              Ok (Cursor entries (Some w)
                    (Some (rstrip_dot (strip (sub def_cut_re []
                                                  mnemonic_and_maybe_def))))
                    (Some (rstrip_dot d)))
          | None =>
              Ok (Cursor entries (Some w)
                    (Some (rstrip_dot mnemonic_and_maybe_def)) None)
          end
      | None =>
          if startswith (chars "mnemonic:") (lower line) then
            let mnemonic_text := sub mnemonic_prefix_re [] line in
            Ok (Cursor (cur_entries c) (current_word c)
                  (Some (rstrip_dot (strip mnemonic_text)))
                  (current_definition c))
          else if startswith (chars "definition:") (lower line) then
            let def_text := sub definition_prefix_re [] line in
            Ok (Cursor (cur_entries c) (current_word c) (current_mnemonic c)
                  (Some (rstrip_dot (strip def_text))))
          else
            match word_def_match with
            | Some m =>
                if is_none (current_word c) then
                  let entries := save_if_worth c in
                  w <- group_strip 1 m ;;
                  d <- group_strip 2 m ;;
                  Ok (Cursor entries (Some w) None (Some (rstrip_dot d)))
                else
                  let entries := cur_entries c ++ [current_entry c] in
                  w <- group_strip 1 m ;;
                  d <- group_strip 2 m ;;
                  Ok (Cursor entries (Some w) None (Some (rstrip_dot d)))
            | None => Ok c
            end
      end
  end.

Fixpoint process_lines (c : cursor) (lines : list str) : result cursor :=
  match lines with
  | [] => Ok c
  | line :: rest => c' <- process_line c line ;; process_lines c' rest
  end.

(** The entries of one group's content. *)
Definition parse_entries (group_content : str) : result (list VocabEntry) :=
  let lines := split_on newline (strip group_content) in
  c <- process_lines (Cursor [] None None None) lines ;;
  Ok (save_if_worth c).

(** [int(s)] on a string of decimal digits; anything else is a
    [ValueError], [int(None)] a [TypeError]. *)
Definition digit_value (c : ascii) : N := N.of_nat (code c - 48).

Definition int_of_digits (s : str) : option N :=
  match s with
  | [] => None
  | _ :: _ =>
      if forallb is_digit s
      then Some (fold_left (fun n c => (10 * n + digit_value c)%N) s 0%N)
      else None
  end.

Definition int (o : option str) : result N :=
  s <- of_option TypeError o ;; of_option ValueError (int_of_digits s).

(** The loop [while i < len(parts) - 1]; [fuel] bounds its turns. *)
Fixpoint groups_loop (fuel : nat) (parts : list (option str)) (i : nat)
    (groups : list VocabGroup) : result (list VocabGroup) :=
  if i <? length parts - 1 then
    match fuel with
    | 0 => OutOfFuel
    | S fuel' =>
        p <- of_option IndexError (nth_error parts i) ;;
        group_num <- int p ;;
        q <- of_option IndexError (nth_error parts (i + 1)) ;;
        group_content <- of_option AttributeError q ;;
        entries <- parse_entries group_content ;;
        groups_loop fuel' parts (i + 2)
          (match entries with
           | [] => groups
           | _ :: _ => groups ++ [Group group_num entries]
           end)
    end
  else Ok groups.

Definition parse_response (text : str) : result (list VocabGroup) :=
  let text := clean_response_text text in
  let parts := split group_pattern 1 text in
  groups_loop (length parts) parts 1 [].

(** *** The loop of [main] over the responses *)

(** [seen_groups] is used for membership and [add] only. *)
Definition seen (n : N) (seen_groups : list N) : bool :=
  existsb (N.eqb n) seen_groups.

Definition add_groups (groups : list VocabGroup)
    (acc : list VocabGroup * list N) : list VocabGroup * list N :=
  fold_left
    (fun acc group =>
       if seen (number group) (snd acc) then acc
       else (fst acc ++ [group], number group :: snd acc))
    groups acc.

Fixpoint main_loop (responses : list str) (acc : list VocabGroup * list N)
    : result (list VocabGroup * list N) :=
  match responses with
  | [] => Ok acc
  | response :: rest =>
      groups <- parse_response response ;;
      main_loop rest (add_groups groups acc)
  end.

(** [all_groups] when the loop of [main] is over: the corpus. *)
Definition extract (responses : list str) : result (list VocabGroup) :=
  acc <- main_loop responses ([], []) ;; Ok (fst acc).

(** ** The renderer *)

Definition dq : ascii := ascii_of_nat 34.

(** The fragments of a template, which a double quote separates. *)
Fixpoint tpl (parts : list string) : str :=
  match parts with
  | [] => []
  | [p] => chars p
  | p :: rest => chars p ++ dq :: tpl rest
  end.

(** [str(n)] as an f-string prints an [int]. *)
Definition decimal (n : nat) : str :=
  chars (NilEmpty.string_of_uint (Nat.to_uint n)).
Definition decimal_N (n : N) : str :=
  chars (NilEmpty.string_of_uint (N.to_uint n)).

(** [range(lo, hi)] *)
Definition range (lo hi : nat) : list N :=
  map N.of_nat (seq lo (hi - lo)).

Record episode := Episode {
  ep_name : str;
  ep_desc : str;
  ep_groups : list N
}.

Definition html_head (total_words ngroups : nat) : str :=
  tpl ["<!DOCTYPE html>
<html lang="%string; "en"%string; ">
<head>
  <meta charset="%string; "UTF-8"%string; ">
  <meta name="%string; "viewport"%string; " content="%string; "width=device-width, initial-scale=1.0"%string; ">
  <title>GRE Vocabulary - Complete Reference</title>
  <style>
    * {
      margin: 0;
      padding: 0;
      box-sizing: border-box;
    }
    
    body {
      font-family: -apple-system, BlinkMacSystemFont, 'Segoe UI', Roboto, Oxygen, Ubuntu, Cantarell, sans-serif;
      line-height: 1.6;
      color: #e8e6f0;
      background: linear-gradient(135deg, #2d3561 0%, #3d2d52 100%);
      min-height: 100vh;
      padding: 20px;
    }
    
    .container {
      max-width: 1200px;
      margin: 0 auto;
      background: #1e1e2e;
      border-radius: 12px;
      box-shadow: 0 20px 60px rgba(0,0,0,0.5);
      overflow: hidden;
    }
    
    header {
      background: #b4a7d6;
      color: #1e1e2e;
      padding: 40px;
      text-align: center;
    }
    
    header h1 {
      font-size: 2.5em;
      margin-bottom: 10px;
      font-weight: 700;
    }
    
    header p {
      font-size: 1.2em;
      opacity: 0.85;
    }
    
    .toc {
      background: #252535;
      padding: 30px 40px;
      border-bottom: 3px solid #8b9dc3;
    }
    
    .toc h2 {
      color: #b4a7d6;
      margin-bottom: 20px;
      font-size: 1.8em;
    }
    
    .toc-episodes {
      display: grid;
      grid-template-columns: repeat(auto-fit, minmax(300px, 1fr));
      gap: 15px;
    }
    
    .toc-episode {
      background: #2a2a3e;
      padding: 15px 20px;
      border-radius: 8px;
      border-left: 4px solid #8b9dc3;
      transition: transform 0.2s, box-shadow 0.2s;
    }
    
    .toc-episode:hover {
      transform: translateX(5px);
      box-shadow: 0 4px 12px rgba(139, 157, 195, 0.3);
    }
    
    .toc-episode h3 {
      color: #a8c0ff;
      margin-bottom: 10px;
      font-size: 1.2em;
    }
    
    .toc-episode ul {
      list-style: none;
      display: flex;
      flex-wrap: wrap;
      gap: 8px;
    }
    
    .toc-episode a {
      color: #deb4e8;
      text-decoration: none;
      font-size: 0.9em;
      padding: 4px 10px;
      background: #353545;
      border-radius: 4px;
      transition: background 0.2s;
    }
    
    .toc-episode a:hover {
      background: #8b9dc3;
      color: #1e1e2e;
    }
    
    .episode {
      padding: 40px;
      border-bottom: 2px solid #2a2a3e;
    }
    
    .episode:last-child {
      border-bottom: none;
    }
    
    .episode-header {
      text-align: center;
      margin-bottom: 30px;
      padding-bottom: 20px;
      border-bottom: 3px solid #8b9dc3;
    }
    
    .episode-header h2 {
      color: #a8c0ff;
      font-size: 2em;
      margin-bottom: 10px;
    }
    
    .episode-header p {
      color: #b4a7d6;
      font-size: 1.1em;
    }
    
    .group {
      margin-bottom: 40px;
      background: #252535;
      border-radius: 8px;
      padding: 20px;
      border-left: 5px solid #deb4e8;
    }
    
    .group-title {
      color: #deb4e8;
      font-size: 1.5em;
      margin-bottom: 15px;
      font-weight: 600;
    }
    
    table {
      width: 100%;
      border-collapse: collapse;
      background: #2a2a3e;
      border-radius: 6px;
      overflow: hidden;
    }
    
    th {
      background: #b4a7d6;
      color: #1e1e2e;
      padding: 12px;
      text-align: left;
      font-weight: 600;
      font-size: 1.1em;
    }
    
    td {
      padding: 10px 12px;
      border-bottom: 1px solid #353545;
      color: #e8e6f0;
    }
    
    tr:last-child td {
      border-bottom: none;
    }
    
    tr:hover {
      background: #2f2f45;
    }
    
    td:first-child {
      font-weight: 600;
      color: #a8c0ff;
      width: 20%;
    }
    
    td:nth-child(2) {
      color: #c9c4d9;
      width: 50%;
      font-style: italic;
    }
    
    td:last-child {
      color: #e8e6f0;
      width: 30%;
    }
    
    .back-to-top {
      position: fixed;
      bottom: 30px;
      right: 30px;
      background: linear-gradient(135deg, #8b9dc3 0%, #b4a7d6 100%);
      color: #1e1e2e;
      width: 50px;
      height: 50px;
      border-radius: 50%;
      display: flex;
      align-items: center;
      justify-content: center;
      text-decoration: none;
      font-size: 1.5em;
      box-shadow: 0 4px 12px rgba(139, 157, 195, 0.4);
      transition: transform 0.2s;
      font-weight: bold;
    }
    
    .back-to-top:hover {
      transform: scale(1.1);
    }
    
    @media (max-width: 768px) {
      body {
        padding: 10px;
      }
      
      header {
        padding: 20px;
      }
      
      header h1 {
        font-size: 1.8em;
      }
      
      .toc, .episode {
        padding: 20px;
      }
      
      .toc-episodes {
        grid-template-columns: 1fr;
      }
      
      td:nth-child(2) {
        display: none;
      }
      
      td:first-child {
        width: 40%;
      }
      
      td:last-child {
        width: 60%;
      }
    }
  </style>
</head>
<body>
  <div class="%string; "container"%string; ">
    <header>
      <h1>GRE Vocabulary Reference</h1>
      <p>Complete collection of "%string]
  ++ decimal total_words
  ++ tpl [" essential words across "%string]
  ++ decimal ngroups
  ++ tpl [" groups</p>
    </header>
    
    <nav class="%string; "toc"%string; " id="%string; "toc"%string; ">
      <h2>ðŸ“š Table of Contents</h2>
      <div class="%string; "toc-episodes"%string; ">
"%string].

Definition toc_open (name desc : str) : str :=
  tpl ["        <div class="%string; "toc-episode"%string; ">
          <h3>"%string]
  ++ name
  ++ tpl ["</h3>
          <p style="%string; "margin-bottom: 10px; color: #b4a7d6;"%string; ">"%string]
  ++ desc
  ++ tpl ["</p>
          <ul>
"%string].

Definition toc_link (gnum : N) : str :=
  tpl ["            <li><a href="%string; "#group"%string]
  ++ decimal_N gnum
  ++ tpl [EmptyString; ">Group "%string]
  ++ decimal_N gnum
  ++ tpl ["</a></li>
"%string].

Definition toc_close : str :=
  tpl ["          </ul>
        </div>
"%string].

Definition nav_close : str :=
  tpl ["      </div>
    </nav>
"%string].

Definition section_open (name desc : str) : str :=
  tpl ["
    <section class="%string; "episode"%string; ">
      <div class="%string; "episode-header"%string; ">
        <h2>"%string]
  ++ name
  ++ tpl ["</h2>
        <p>"%string]
  ++ desc
  ++ tpl ["</p>
      </div>
"%string].

Definition group_open (number : N) : str :=
  tpl ["
      <div class="%string; "group"%string; " id="%string; "group"%string]
  ++ decimal_N number
  ++ tpl [EmptyString; ">
        <h3 class="%string; "group-title"%string; ">Group "%string]
  ++ decimal_N number
  ++ tpl ["</h3>
        <table>
          <thead>
            <tr>
              <th>Word</th>
              <th>Mnemonic</th>
              <th>Definition</th>
            </tr>
          </thead>
          <tbody>
"%string].

Definition table_row (word mnemonic definition : str) : str :=
  tpl ["            <tr><td>"%string]
  ++ word
  ++ tpl ["</td><td>"%string]
  ++ mnemonic
  ++ tpl ["</td><td>"%string]
  ++ definition
  ++ tpl ["</td></tr>
"%string].

Definition group_close : str :=
  tpl ["          </tbody>
        </table>
      </div>
"%string].

Definition section_close : str :=
  tpl ["    </section>
"%string].

Definition html_tail : str :=
  tpl ["  </div>
  
  <a href="%string; "#toc"%string; " class="%string; "back-to-top"%string; ">â†‘</a>
</body>
</html>
"%string].

Definition episodes : list episode :=
  [
    Episode (chars "Episode 1: Groups 1â€“4") (chars "Foundation vocabulary") (range 1 5);
    Episode (chars "Episode 2: Groups 5â€“9") (chars "Building blocks") (range 5 10);
    Episode (chars "Episode 3: Groups 10â€“14") (chars "Advanced concepts") (range 10 15);
    Episode (chars "Episode 4: Groups 15â€“19") (chars "Expanding horizons") (range 15 20);
    Episode (chars "Episode 5: Groups 20â€“24") (chars "Deepening knowledge") (range 20 25);
    Episode (chars "Episode 6: Groups 25â€“29") (chars "Mastery level") (range 25 30);
    Episode (chars "Episode 7: Groups 30â€“34") (chars "Expert vocabulary") (range 30 35)
  ].

(** [all_groups.sort(key=lambda x: x['number'])]: a stable sort. *)
Fixpoint insert_group (g : VocabGroup) (l : list VocabGroup) : list VocabGroup :=
  match l with
  | [] => [g]
  | h :: t =>
      if (number g <? number h)%N then g :: l else h :: insert_group g t
  end.

Definition sort_groups (l : list VocabGroup) : list VocabGroup :=
  fold_left (fun sorted g => insert_group g sorted) l [].

(** [sum(len(g['entries']) for g in all_groups)] *)
Definition total_words (all_groups : list VocabGroup) : nat :=
  fold_left (fun n g => n + length (entries g)) all_groups 0.

(** [{g['number']: g for g in all_groups}]: a later group replaces an
    earlier one of the same number. *)
Definition dict := N -> option VocabGroup.

Definition dict_set (d : dict) (k : N) (v : VocabGroup) : dict :=
  fun n => if N.eqb n k then Some v else d n.

Definition group_lookup (all_groups : list VocabGroup) : dict :=
  fold_left (fun d g => dict_set d (number g) g) all_groups (fun _ => None).

(** [gnum in group_lookup] *)
Definition has_key (d : dict) (gnum : N) : bool :=
  match d gnum with Some _ => true | None => false end.

(** [[group_lookup[gnum] for gnum in episode['groups'] if gnum in group_lookup]] *)
Definition episode_groups (d : dict) (ep : episode) : list VocabGroup :=
  flat_map (fun gnum => match d gnum with Some g => [g] | None => [] end)
           (ep_groups ep).

(** The three replacements that escape a cell's text. *)
Definition escape (s : str) : str :=
  replace ">" (chars "&gt;")
    (replace "<" (chars "&lt;") (replace "&" (chars "&amp;") s)).

(** One turn of [for entry in group['entries']]; on an entry's string
    [entry.get(k, '') or ''] is the string itself. *)
Definition render_entry (html : str) (entry : VocabEntry) : str :=
  let word := title (word entry) in
  let mnemonic := escape (mnemonic entry) in
  let definition := escape (definition entry) in
  html ++ table_row word mnemonic definition.

Definition render_group (html : str) (group : VocabGroup) : str :=
  let html := html ++ group_open (number group) in
  let html := fold_left render_entry (entries group) html in
  html ++ group_close.

Definition render_toc (d : dict) (html : str) : str :=
  fold_left
    (fun html ep =>
       let html := html ++ toc_open (ep_name ep) (ep_desc ep) in
       let html :=
         fold_left
           (fun html gnum =>
              if has_key d gnum then html ++ toc_link gnum else html)
           (ep_groups ep) html in
       html ++ toc_close)
    episodes html.

Definition render_sections (d : dict) (html : str) : str :=
  fold_left
    (fun html ep =>
       match episode_groups d ep with
       | [] => html                                      (* continue *)
       | (_ :: _) as groups =>
           let html := html ++ section_open (ep_name ep) (ep_desc ep) in
           let html := fold_left render_group groups html in
           html ++ section_close
       end)
    episodes html.

Definition generate_html (all_groups : list VocabGroup) : str :=
  let all_groups := sort_groups all_groups in
  let d := group_lookup all_groups in
  let html := html_head (total_words all_groups) (length all_groups) in
  let html := render_toc d html in
  let html := html ++ nav_close in
  let html := render_sections d html in
  html ++ html_tail.

(** ** Vocabulary of the properties *)

(** The first, and the last, character of [s] is in the class [p]. *)
Definition begins (p : ascii -> bool) (s : str) : bool :=
  match s with
  | c :: _ => p c
  | [] => false
  end.

Definition ends (p : ascii -> bool) (s : str) : bool := begins p (rev s).

(** No whitespace at either end. *)
Definition trimmed (s : str) : Prop :=
  begins is_space s = false /\ ends is_space s = false.

(** A non-empty run of characters of one class. *)
Definition run (p : ascii -> bool) (w : str) : Prop :=
  w <> [] /\ forallb p w = true.

(** One or two alphabetic tokens, whitespace between the two. *)
Definition one_or_two_tokens (w : str) : Prop :=
  run is_alpha w
  \/ exists w1 g w2, w = w1 ++ g ++ w2
                     /\ run is_alpha w1 /\ run is_space g /\ run is_alpha w2.

(** The characters of [s] stand at the head of [t], each compared by
    [cls]: how a literal of a pattern matches. *)
Fixpoint matches_prefix (cls : ascii -> ascii -> bool) (s t : str) : bool :=
  match s, t with
  | [], _ => true
  | c :: s', x :: t' => cls c x && matches_prefix cls s' t'
  | _ :: _, [] => false
  end.

(** [$] holds with [tail] left of the subject. *)
Definition at_end (tail : str) : Prop := tail = [] \/ tail = [newline].

(** A text without whitespace at its ends, its trailing periods
    stripped: what the extractor stores as a mnemonic or a definition. *)
Definition field_ok (f : str) : Prop :=
  exists s, trimmed s /\ f = rstrip_dot s.

Definition entry_ok (e : VocabEntry) : Prop :=
  one_or_two_tokens (word e) /\ field_ok (mnemonic e)
  /\ field_ok (definition e).

Definition opt_ok {A} (P : A -> Prop) (o : option A) : Prop :=
  match o with
  | Some x => P x
  | None => True
  end.

(** The invariant of the line loop. *)
Definition cursor_ok (c : cursor) : Prop :=
  Forall entry_ok (cur_entries c)
  /\ opt_ok one_or_two_tokens (current_word c)
  /\ opt_ok field_ok (current_mnemonic c)
  /\ opt_ok field_ok (current_definition c).

(** What the word-definition branches leave in [entries]. *)
Definition flushed (c : cursor) : list VocabEntry :=
  if is_none (current_word c) then cur_entries c
  else cur_entries c ++ [current_entry c].

(** A group as [parse_response] returns it: with entries, all well formed. *)
Definition group_ok (g : VocabGroup) : Prop :=
  entries g <> [] /\ Forall entry_ok (entries g).

(** The list [parts] of [parse_response] after the preamble: group number
    and group content in turn. *)
Definition flat_pairs (pairs : list (str * str)) : list (option str) :=
  flat_map (fun dc => [Some (fst dc); Some (snd dc)]) pairs.

(** First write wins, in the spec's words: of the groups in the order they
    were parsed, one is kept unless its number was met before. *)
Fixpoint first_wins (seen_groups : list N) (groups : list VocabGroup)
    : list VocabGroup :=
  match groups with
  | [] => []
  | g :: rest =>
      if seen (number g) seen_groups then first_wins seen_groups rest
      else g :: first_wins (number g :: seen_groups) rest
  end.

(** [g] stands in [l] with no group of its number before it. *)
Definition first_with_number (l : list VocabGroup) (g : VocabGroup) : Prop :=
  exists l1 l2, l = l1 ++ g :: l2
                /\ forall h, In h l1 -> number h <> number g.

(** Each response with the groups [parse_response] returns for it. *)
Definition parsed_as (responses : list str) (parsed : list (list VocabGroup))
    : Prop :=
  Forall2 (fun r gs => parse_response r = Ok gs) responses parsed.

(** The characters that open markup in HTML. *)
Definition is_markup (c : ascii) : bool :=
  is_char "&" c || is_char "<" c || is_char ">" c.

Definition alpha_or_space (c : ascii) : bool := is_alpha c || is_space c.

Definition not_dash (c : ascii) : bool := negb (is_char "-" c).

(** The line [<word> - <text>], whitespace around the dash at will. *)
Definition word_line (w g1 g2 text : str) : str :=
  w ++ g1 ++ "-"%char :: g2 ++ text.


(** *** Sample inputs *)

Definition nl : str := [newline].

(** [Ebullient - Mnemonic: Sounds like "bubble-ient," bubbling over.
    Definition: cheerful and full of energy.] *)
Definition ebullient_line : str :=
  chars "Ebullient - Mnemonic: Sounds like " ++ dq :: chars "bubble-ient,"
  ++ dq :: chars " bubbling over. Definition: cheerful and full of energy.".

Definition ebullient_entry : VocabEntry :=
  Entry (chars "Ebullient")
        (chars "Sounds like " ++ dq :: chars "bubble-ient," ++ dq
           :: chars " bubbling over")
        (chars "cheerful and full of energy").

Definition abate_line : str := chars "Abate - to become less intense.".

Definition abate_entry : VocabEntry :=
  Entry (chars "Abate") [] (chars "to become less intense").

(** A mnemonic of periods only, then a word-definition line. *)
Definition empty_mnemonic_block : str :=
  chars "Group 1" ++ nl ++ chars "Zeal - Mnemonic: ..." ++ nl ++ abate_line.

(** Periods after a space, in the mnemonic and in the definition. *)
Definition spaced_periods_block : str :=
  chars "Group 1" ++ nl
  ++ chars "Abate - Mnemonic: a bait fades . Definition: to lessen ..".

(** A "Group 5" section without an entry, and one with an entry. *)
Definition bare_group_block : str := chars "Group 5" ++ nl ++ chars "(to come)".
Definition abate_group_block : str := chars "Group 5" ++ nl ++ abate_line.

(** Two sections of one number in one block. *)
Definition twice_group_block : str :=
  chars "Group 2" ++ nl ++ abate_line ++ nl
  ++ chars "Group 2" ++ nl ++ chars "Zeal - great energy.".


(** *** The document, part by part *)

(** Escaping in one pass over the text, each character on its own. *)
Definition escape_char (c : ascii) : str :=
  if is_char "&" c then chars "&amp;"
  else if is_char "<" c then chars "&lt;"
  else if is_char ">" c then chars "&gt;"
  else [c].

Definition escape_once (s : str) : str := flat_map escape_char s.

(** The row of an entry: the word in title case, the mnemonic and the
    definition escaped. *)
Definition entry_row (e : VocabEntry) : str :=
  table_row (title (word e)) (escape_once (mnemonic e))
            (escape_once (definition e)).

Definition group_table (g : VocabGroup) : str :=
  group_open (number g) ++ concat (map entry_row (entries g)) ++ group_close.

(** The block of an episode in the table of contents: a link for each
    number of its range that is a key of the lookup. *)
Definition toc_block (d : dict) (ep : episode) : str :=
  toc_open (ep_name ep) (ep_desc ep)
  ++ concat (map toc_link (filter (has_key d) (ep_groups ep)))
  ++ toc_close.

(** The section of an episode in the body: none without a group. *)
Definition body_section (d : dict) (ep : episode) : str :=
  match episode_groups d ep with
  | [] => []
  | groups =>
      section_open (ep_name ep) (ep_desc ep)
      ++ concat (map group_table groups) ++ section_close
  end.

(** [part] stands somewhere in [whole]. *)
Definition contains (whole part : str) : Prop :=
  exists pre post, whole = pre ++ part ++ post.


(** ** More of the program *)

(** *** [parse_vocab_entry] *)

(** [^([A-Za-z\s]+)\s*-\s*Mnemonic:\s*(.+?)\s*Definition:\s*(.+?)\.?$],
    IGNORECASE *)
Definition entry_with_definition_re : regex :=
  cat [Bol false; Grp 1 (Many1 true alpha_or_space); spaces;
       Cls (is_char "-"); spaces; LitI "Mnemonic:"; spaces;
       Grp 2 (Many1 false is_dot); spaces; LitI "Definition:"; spaces;
       Grp 3 (Many1 false is_dot); Opt dot; Eol].

(** [^([A-Za-z\s]+)\s*-\s*Mnemonic:\s*(.+?)$], IGNORECASE *)
Definition entry_mnemonic_re : regex :=
  cat [Bol false; Grp 1 (Many1 true alpha_or_space); spaces;
       Cls (is_char "-"); spaces; LitI "Mnemonic:"; spaces;
       Grp 2 (Many1 false is_dot); Eol].

(** The dict of an entry, or [None]. *)
Definition parse_vocab_entry (line : str) : result (option VocabEntry) :=
  match rmatch entry_with_definition_re (strip line) with
  | Some m =>
      w <- group_strip 1 m ;;
      mn <- group_strip 2 m ;;
      d <- group_strip 3 m ;;
      Ok (Some (Entry w (rstrip_dot mn) (rstrip_dot d)))
  | None =>
      match rmatch entry_mnemonic_re (strip line) with
      | Some m =>
          w <- group_strip 1 m ;;
          mn <- group_strip 2 m ;;
          Ok (Some (Entry w (rstrip_dot mn) []))
      | None => Ok None
      end
  end.

(** *** Vocabulary of the further properties *)

(** The numbers of a list of groups. *)
Definition numbers (groups : list VocabGroup) : list N := map number groups.

(** The words of a list of groups, counted. *)
Definition words (groups : list VocabGroup) : nat :=
  list_sum (map (fun g => length (entries g)) groups).

(** The numbers that an episode lists: 1 to 34. *)
Definition listed (n : N) : bool := ((1 <=? n) && (n <=? 34))%N.

(** A character that opens or closes a tag. *)
Definition is_angle (c : ascii) : bool := is_char "<" c || is_char ">" c.

(** What the document holds after its head, for a lookup of groups. *)
Definition after_head (d : dict) : str :=
  concat (map (toc_block d) episodes) ++ nav_close
  ++ concat (map (body_section d) episodes) ++ html_tail.

(** [kw] stands somewhere in [s], the letters of [s] in either case. *)
Fixpoint has_keyword (kw s : str) : bool :=
  startswith kw (lower s)
  || match s with
     | [] => false
     | _ :: s' => has_keyword kw s'
     end.


(** The word is one or two alphabetic tokens, the keyword is "Mnemonic:"
    in some case of the letters, the text is on one line and without
    whitespace at its ends. *)
Definition mnemonic_shape (w g1 g2 kw g3 text : str) : Prop :=
  one_or_two_tokens w
  /\ forallb is_space g1 = true /\ forallb is_space g2 = true
  /\ lower kw = chars "mnemonic:"
  /\ forallb is_space g3 = true
  /\ run is_dot text /\ trimmed text.

(** Such a line without "Definition:" in its text. *)
Definition mnemonic_text (w g1 g2 kw g3 text : str) : Prop :=
  mnemonic_shape w g1 g2 kw g3 text
  /\ has_keyword (chars "definition:") text = false.


(** [s] is [t] with some of its characters left out. *)
Inductive subseq : str -> str -> Prop :=
| subseq_nil : subseq [] []
| subseq_keep c s t : subseq s t -> subseq (c :: s) (c :: t)
| subseq_drop c s t : subseq s t -> subseq s (c :: t).

(** * Properties *)

(** ** The matcher against the meaning of a pattern *)

Module ReFacts.
Import Re.

Lemma orelse_some {A} (x : option A) y (a : A) :
  orelse x y = Some a -> x = Some a \/ (x = None /\ y tt = Some a).
Proof. destruct x; simpl; intros H; [left | right]; auto. Qed.

Lemma orelse_none {A} (x : option A) y :
  orelse x y = None <-> x = None /\ y tt = None.
Proof. destruct x; simpl; intuition congruence. Qed.

Lemma many_unfold p g b a cs k :
  many p g b a cs k =
  let more (_ : unit) :=
    match a with
    | c :: a' => if p c then many p g (c :: b) a' cs k else None
    | [] => None
    end in
  let stop (_ : unit) := k (MState b a cs) in
  if g then orelse (more tt) stop else orelse (stop tt) more.
Proof. destruct a; reflexivity. Qed.

Lemma many_sound p g a : forall b cs k x,
  many p g b a cs k = Some x ->
  exists w a', a = w ++ a' /\ forallb p w = true
               /\ k (MState (rev w ++ b) a' cs) = Some x.
Proof.
  induction a as [|c a IH]; intros b cs k x H; rewrite many_unfold in H; cbv zeta in H.
  - exists [], []. destruct g; apply orelse_some in H; simpl; intuition congruence.
  - assert (Hmore : (if p c then many p g (c :: b) a cs k else None) = Some x ->
                    exists w a', c :: a = w ++ a' /\ forallb p w = true
                                 /\ k (MState (rev w ++ b) a' cs) = Some x).
    { destruct (p c) eqn:Hp; [|discriminate]. intros H'.
      destruct (IH _ _ _ _ H') as (w & a' & -> & Hw & Hk).
      exists (c :: w), a'. simpl. rewrite Hp, Hw, <- app_assoc. auto. }
    assert (Hstop : k (MState b (c :: a) cs) = Some x ->
                    exists w a', c :: a = w ++ a' /\ forallb p w = true
                                 /\ k (MState (rev w ++ b) a' cs) = Some x).
    { intros H'. exists [], (c :: a). auto. }
    destruct g; apply orelse_some in H; destruct H as [H | [_ H]]; auto.
Qed.

Lemma many_complete p g w : forall b a' cs k,
  forallb p w = true ->
  k (MState (rev w ++ b) a' cs) <> None ->
  many p g b (w ++ a') cs k <> None.
Proof.
  induction w as [|c w IH]; intros b a' cs k Hw Hk;
    change ((c :: w) ++ a') with (c :: (w ++ a')) || idtac;
    rewrite many_unfold; cbv zeta.
  - simpl in *. destruct g; rewrite orelse_none; tauto.
  - simpl in Hw. apply andb_true_iff in Hw as [Hp Hw].
    rewrite Hp.
    assert (many p g (c :: b) (w ++ a') cs k <> None) as Hm.
    { apply IH; auto. simpl in Hk. rewrite <- app_assoc in Hk. exact Hk. }
    destruct g; rewrite orelse_none; tauto.
Qed.

(** The matcher finds only matches, and finds one whenever there is one
    that the rest of the pattern accepts. *)
Lemma exec_sound_complete r :
  (forall st k x, exec r st k = Some x ->
                  exists st', Sem r st st' /\ k st' = Some x)
  /\ (forall st st' k, Sem r st st' -> k st' <> None -> exec r st k <> None).
Proof.
  induction r as [ | p | g p | r1 [S1 C1] r2 [S2 C2] | r1 [S1 C1] r2 [S2 C2]
                 | r1 [S1 C1] | n r1 [S1 C1] | r1 [S1 C1] | m | ]; simpl; split.
  - intros st k x H. eauto.
  - intros st st' k -> H. exact H.
  - intros st k x H. destruct (after st) as [|c a'] eqn:Ha; [discriminate|].
    destruct (p c) eqn:Hp; [|discriminate]. eauto 8.
  - intros st st' k (c & a' & Ha & Hp & ->) H. rewrite Ha, Hp. exact H.
  - intros st k x H. apply many_sound in H as (w & a' & Ha & Hw & Hk). eauto 8.
  - intros st st' k (w & a' & Ha & Hw & ->) H. rewrite Ha.
    apply many_complete; auto.
  - intros st k x H. apply S1 in H as (mid & H1 & H).
    apply S2 in H as (st' & H2 & H). eauto.
  - intros st st' k (mid & H1 & H2) H. eapply C1; eauto.
  - intros st k x H. apply orelse_some in H as [H | [_ H]].
    + apply S1 in H as (st' & H1 & H). eauto.
    + apply S2 in H as (st' & H2 & H). eauto.
  - intros st st' k [H1 | H2] H; rewrite orelse_none; intros [Ha Hb].
    + eapply C1; eauto.
    + eapply C2; eauto.
  - intros st k x H. apply orelse_some in H as [H | [_ H]].
    + apply S1 in H as (st' & H1 & H). eauto.
    + eauto.
  - intros st st' k [H1 | ->] H; rewrite orelse_none; intros [Ha Hb].
    + eapply C1; eauto.
    + auto.
  - intros st k x H. apply S1 in H as (mid & H1 & H). eauto.
  - intros st st' k (mid & H1 & ->) H. eapply C1; eauto.
  - intros st k x H. destruct (exec r1 st Some) eqn:E; [discriminate|].
    exists st. repeat split; auto. intros y Hy.
    apply (C1 st y Some Hy); [discriminate | exact E].
  - intros st st' k [-> Hn] H. destruct (exec r1 st Some) eqn:E; [|exact H].
    apply S1 in E as (y & Hy & _). elim (Hn y Hy).
  - intros st k x H. destruct (at_bol m st) eqn:E; [eauto | discriminate].
  - intros st st' k [-> E] H. rewrite E. exact H.
  - intros st k x H. destruct (at_eol st) eqn:E; [eauto | discriminate].
  - intros st st' k [-> E] H. rewrite E. exact H.
Qed.

Lemma exec_sound r st k x :
  exec r st k = Some x -> exists st', Sem r st st' /\ k st' = Some x.
Proof. apply exec_sound_complete. Qed.

Lemma exec_complete r st st' k :
  Sem r st st' -> k st' <> None -> exec r st k <> None.
Proof. apply exec_sound_complete. Qed.

Lemma rmatch_sound r s m : rmatch r s = Some m -> Sem r (start_at [] s) m.
Proof.
  unfold rmatch. intros H. apply exec_sound in H as (st' & H & E).
  congruence.
Qed.

Lemma rmatch_none r s : (forall m, ~ Sem r (start_at [] s) m) -> rmatch r s = None.
Proof.
  intros H. destruct (rmatch r s) eqn:E; auto.
  apply rmatch_sound in E. elim (H _ E).
Qed.

Lemma rmatch_complete r s m :
  Sem r (start_at [] s) m -> exists m', rmatch r s = Some m'.
Proof.
  intros H. destruct (rmatch r s) eqn:E; eauto.
  exfalso. eapply (exec_complete r _ _ Some H); [discriminate | exact E].
Qed.

End ReFacts.

(** ** Strings *)

Lemma lstrip_by_split p s :
  exists t, s = t ++ lstrip_by p s /\ forallb p t = true.
Proof.
  induction s as [|c s (t & E & F)]; simpl.
  - exists []. auto.
  - destruct (p c) eqn:Hp.
    + exists (c :: t). simpl. rewrite Hp, F, <- E. auto.
    + exists []. auto.
Qed.

Lemma begins_lstrip_by p s : begins p (lstrip_by p s) = false.
Proof.
  induction s as [|c s IH]; simpl; auto.
  destruct (p c) eqn:Hp; simpl; auto.
Qed.

Lemma lstrip_by_id p s : begins p s = false -> lstrip_by p s = s.
Proof. destruct s; simpl; auto. intros ->. auto. Qed.

Lemma rstrip_by_split p s :
  exists t, s = rstrip_by p s ++ t /\ forallb p t = true.
Proof.
  unfold rstrip_by. destruct (lstrip_by_split p (rev s)) as (t & E & F).
  exists (rev t). split.
  - rewrite <- rev_app_distr, <- E, rev_involutive. reflexivity.
  - rewrite forallb_forall in *. intros x Hx. apply F, in_rev, Hx.
Qed.

Lemma ends_rstrip_by p s : ends p (rstrip_by p s) = false.
Proof.
  unfold ends, rstrip_by. rewrite rev_involutive. apply begins_lstrip_by.
Qed.

Lemma rstrip_by_id p s : ends p s = false -> rstrip_by p s = s.
Proof.
  unfold ends, rstrip_by. intros H. rewrite lstrip_by_id by exact H.
  apply rev_involutive.
Qed.

Lemma begins_app p s t : s <> [] -> begins p (s ++ t) = begins p s.
Proof. destruct s; simpl; congruence. Qed.

Lemma begins_rstrip_by q p s :
  begins q s = false -> begins q (rstrip_by p s) = false.
Proof.
  intros H. destruct (rstrip_by_split p s) as (t & E & _).
  destruct (rstrip_by p s) as [|c r] eqn:R; auto.
  rewrite E in H. exact H.
Qed.

Lemma begins_strip s : begins is_space (strip s) = false.
Proof. apply begins_rstrip_by, begins_lstrip_by. Qed.

Lemma ends_strip s : ends is_space (strip s) = false.
Proof. apply ends_rstrip_by. Qed.

Lemma strip_trimmed s : trimmed (strip s).
Proof. split; [apply begins_strip | apply ends_strip]. Qed.

Lemma strip_id s : trimmed s -> strip s = s.
Proof.
  intros [B E]. unfold strip. rewrite (lstrip_by_id _ _ B).
  apply rstrip_by_id, E.
Qed.

Lemma ends_app p s t : t <> [] -> ends p (s ++ t) = ends p t.
Proof.
  intros H. unfold ends. rewrite rev_app_distr. apply begins_app.
  destruct t; [congruence|]. simpl. destruct (rev t); discriminate.
Qed.


(** A run of one class neither begins nor ends in a disjoint class. *)
Lemma run_begins p q w :
  (forall c, p c = true -> q c = false) -> run p w -> begins q w = false.
Proof.
  intros D [N F]. destruct w as [|c w]; [congruence|].
  simpl in *. apply andb_true_iff in F. apply D. tauto.
Qed.

Lemma run_ends p q w :
  (forall c, p c = true -> q c = false) -> run p w -> ends q w = false.
Proof.
  intros D [N F]. unfold ends. apply (run_begins p q); auto. split.
  - destruct w; [congruence|]. simpl. destruct (rev w); discriminate.
  - rewrite forallb_forall in *. intros x Hx. apply F, in_rev, Hx.
Qed.

Lemma alpha_not_space c : is_alpha c = true -> is_space c = false.
Proof.
  unfold is_alpha, is_space, is_upper, is_lower, in_range.
  destruct (code c) as [|n] eqn:E; intros H;
    repeat rewrite ?orb_true_iff, ?andb_true_iff, ?orb_false_iff,
      ?andb_false_iff, ?Nat.leb_le, ?Nat.leb_gt in *; lia.
Qed.

Lemma tokens_trimmed w : one_or_two_tokens w -> trimmed w.
Proof.
  intros [R | (w1 & g & w2 & -> & R1 & Rg & R2)]; split.
  - apply (run_begins is_alpha); auto using alpha_not_space.
  - apply (run_ends is_alpha); auto using alpha_not_space.
  - rewrite begins_app by apply R1.
    apply (run_begins is_alpha); auto using alpha_not_space.
  - rewrite app_assoc, ends_app by apply R2.
    apply (run_ends is_alpha); auto using alpha_not_space.
Qed.

Lemma tokens_chars w :
  one_or_two_tokens w ->
  forallb (fun c => is_alpha c || is_space c) w = true.
Proof.
  intros [[_ F] | (w1 & g & w2 & -> & [_ F1] & [_ Fg] & [_ F2])];
    rewrite ?forallb_app, ?andb_true_iff, ?forallb_forall in *;
    repeat split; intros x Hx;
    rewrite ?(F x Hx), ?(F1 x Hx), ?(Fg x Hx), ?(F2 x Hx);
    auto using orb_true_r.
Qed.

(** ** The patterns of the extractor *)

Module PatternFacts.
Import Re ReFacts.

Lemma seq_of_sem cls s : forall st st',
  Sem (seq_of cls s) st st' <->
  matches_prefix cls s (after st) = true
  /\ st' = MState (rev (firstn (length s) (after st)) ++ before st)
                  (skipn (length s) (after st)) (caps st).
Proof.
  induction s as [|c s IH]; intros st st'.
  - simpl. destruct st; simpl. intuition congruence.
  - assert (Sem (seq_of cls (c :: s)) st st'
            <-> Sem (Seq (Cls (cls c)) (seq_of cls s)) st st') as ->.
    { destruct s; [|reflexivity]. simpl. split.
      - intros H. eexists. split; [exact H | reflexivity].
      - intros (mid & H & ->). exact H. }
    cbn [Sem]. split.
    + intros (mid & (x & a' & Ha & Hc & ->) & H). apply IH in H as [M ->].
      simpl in *. rewrite Ha. simpl. rewrite Hc, M. split; auto.
      rewrite <- app_assoc. reflexivity.
    + destruct (after st) as [|x a'] eqn:Ha; simpl; [intuition discriminate|].
      intros [M ->]. apply andb_true_iff in M as [Hc M].
      exists (MState (x :: before st) a' (caps st)). split.
      * exists x, a'. auto.
      * apply IH. simpl. split; auto. rewrite <- app_assoc. reflexivity.
Qed.

(** Under [re.IGNORECASE] a literal matches what [str.lower] makes equal. *)
Lemma matches_prefix_i s t :
  matches_prefix is_char_i s t = startswith (lower s) (lower t).
Proof.
  revert t. induction s as [|c s IH]; intros [|x t]; simpl; auto.
  rewrite IH. unfold is_char_i. f_equal. apply Ascii.eqb_sym.
Qed.

Lemma consumed_app st st' w : after st = w ++ after st' -> consumed st st' = w.
Proof.
  unfold consumed. intros ->. rewrite length_app.
  replace (length w + length (after st') - length (after st')) with (length w) by lia.
  rewrite firstn_app, Nat.sub_diag, firstn_all. simpl. apply app_nil_r.
Qed.

Lemma many1_sem g p st st' :
  Sem (Many1 g p) st st' <->
  exists w a', run p w /\ after st = w ++ a'
               /\ st' = MState (rev w ++ before st) a' (caps st).
Proof.
  unfold Many1. cbn [Sem]. split.
  - intros (mid & (c & a' & Ha & Hp & ->) & (w & a'' & Hb & Hw & ->)).
    simpl in *. subst a'. exists (c :: w), a''. repeat split.
    + discriminate.
    + simpl. rewrite Hp, Hw. reflexivity.
    + exact Ha.
    + simpl. rewrite <- app_assoc. reflexivity.
  - intros (w & a' & [N F] & Ha & ->). destruct w as [|c w]; [congruence|].
    simpl in F. apply andb_true_iff in F as [Hp Hw].
    exists (MState (c :: before st) (w ++ a') (caps st)). split.
    + exists c, (w ++ a'). auto.
    + exists w, a'. repeat split; auto.
      simpl. rewrite <- app_assoc. reflexivity.
Qed.

(** What [[a-zA-Z]+(?:\s+[a-zA-Z]+)?] takes. *)
Lemma word_tokens_sem st st' :
  Sem word_tokens st st' <->
  exists w a', one_or_two_tokens w /\ after st = w ++ a'
               /\ st' = MState (rev w ++ before st) a' (caps st).
Proof.
  unfold word_tokens. cbn [Sem]. split.
  - intros (m1 & H1 & H). apply many1_sem in H1 as (w1 & a1 & R1 & A1 & ->).
    destruct H as [(m2 & Hg & H2) | ->].
    + apply many1_sem in Hg as (g & a2 & Rg & Ag & ->).
      apply many1_sem in H2 as (w2 & a3 & R2 & A2 & ->). simpl in *.
      exists (w1 ++ g ++ w2), a3. split; [right; eauto 8|].
      rewrite A1, Ag, A2, !rev_app_distr, <- !app_assoc. auto.
    + exists w1, a1. split; [left; auto|]. auto.
  - intros (w & a' & [R | (w1 & g & w2 & -> & R1 & Rg & R2)] & A & ->).
    + exists (MState (rev w ++ before st) a' (caps st)).
      split; [apply many1_sem; eauto | right; reflexivity].
    + exists (MState (rev w1 ++ before st) (g ++ w2 ++ a') (caps st)).
      split.
      { apply many1_sem. exists w1, (g ++ w2 ++ a'). rewrite A, <- !app_assoc. auto. }
      left. exists (MState (rev g ++ rev w1 ++ before st) (w2 ++ a') (caps st)).
      split; apply many1_sem; simpl.
      * exists g, (w2 ++ a'). auto.
      * exists w2, a'. rewrite !rev_app_distr, <- !app_assoc. auto.
Qed.

Lemma lit_i_sem s st st' :
  Sem (LitI s) st st' <->
  startswith (lower (chars s)) (lower (after st)) = true
  /\ st' = MState (rev (firstn (length (chars s)) (after st)) ++ before st)
                  (skipn (length (chars s)) (after st)) (caps st).
Proof. unfold LitI. rewrite seq_of_sem, matches_prefix_i. reflexivity. Qed.

Lemma at_eol_end st : at_eol st = true <-> at_end (after st).
Proof.
  unfold at_eol, at_end. destruct (after st) as [|c [|d a]].
  - intuition.
  - rewrite Ascii.eqb_eq. split; [intros ->; auto | intros [H|H]; congruence].
  - split; [discriminate | intros [H|H]; discriminate].
Qed.

(** Takes a hypothesis [Sem r st st'] on a pattern apart, down to the
    text it went through. *)
Ltac sem_step :=
  match goal with
  | H : Sem (cat _) _ _ |- _ => cbn [cat] in H
  | H : Sem (Seq _ _) _ _ |- _ =>
      let mid := fresh "mid" in destruct H as (mid & ? & ?)
  | H : Sem (Grp _ _) _ _ |- _ =>
      let mid := fresh "mid" in destruct H as (mid & ? & ->)
  | H : Sem word_tokens _ _ |- _ =>
      apply word_tokens_sem in H as (? & ? & ? & ? & ->)
  | H : Sem (Many1 _ _) _ _ |- _ =>
      apply many1_sem in H as (? & ? & ? & ? & ->)
  | H : Sem (Many _ _) _ _ |- _ => destruct H as (? & ? & ? & ? & ->)
  | H : Sem (LitI _) _ _ |- _ => apply lit_i_sem in H as (? & ->)
  | H : Sem (Cls _) _ _ |- _ => destruct H as (? & ? & ? & ? & ->)
  | H : Sem (Bol _) _ _ |- _ => destruct H as (-> & ?)
  | H : Sem Eol _ _ |- _ => destruct H as (-> & ?)
  | H : Sem (NotAhead _) _ _ |- _ => destruct H as (-> & ?)
  | H : Sem spaces _ _ |- _ => unfold spaces in H
  | H : Sem dot _ _ |- _ => unfold dot in H
  end.

Lemma consumed_mk b w a c b' c' :
  consumed (MState b (w ++ a) c) (MState b' a c') = w.
Proof. apply consumed_app. reflexivity. Qed.

Ltac splits := repeat match goal with |- _ /\ _ => split end.

Ltac sem_inv :=
  repeat (sem_step; cbn [after before caps start_at set_group] in *);
  repeat match goal with
         | H : ?a = _ ++ _ |- _ => is_var a; subst a
         | H : ?a = _ :: _ |- _ => is_var a; subst a
         | H : is_char _ _ = true |- _ => apply Ascii.eqb_eq in H; subst
         | H : at_eol _ = true |- _ => apply at_eol_end in H; cbn [after] in H
         end;
  unfold start_at, set_group in *; cbn [after before caps] in *;
  rewrite ?consumed_mk in *.

(** The anatomy of a line that [word_mnemonic_re] matches. *)
Lemma word_mnemonic_inv line m :
  Sem word_mnemonic_re (start_at [] line) m ->
  exists w g1 g2 rest g3 t tail,
    line = w ++ g1 ++ "-"%char :: g2 ++ rest
    /\ one_or_two_tokens w
    /\ forallb is_space g1 = true /\ forallb is_space g2 = true
    /\ startswith (chars "mnemonic:") (lower rest) = true
    /\ skipn 9 rest = g3 ++ t ++ tail
    /\ forallb is_space g3 = true /\ run is_dot t /\ at_end tail
    /\ caps m = [(2, t); (1, w)].
Proof.
  unfold word_mnemonic_re. intros H. sem_inv.
  do 7 eexists. split; [reflexivity|]. splits; eassumption || reflexivity.
Qed.

(** The anatomy of a line that [word_def_re] matches. *)
Lemma word_def_inv line m :
  Sem word_def_re (start_at [] line) m ->
  exists w g1 g2 t tail,
    line = w ++ g1 ++ "-"%char :: g2 ++ t ++ tail
    /\ one_or_two_tokens w
    /\ forallb is_space g1 = true /\ forallb is_space g2 = true
    /\ run is_dot t /\ at_end tail
    /\ caps m = [(2, t); (1, w)].
Proof.
  unfold word_def_re. intros H. sem_inv.
  do 5 eexists. split; [reflexivity|]. splits; eassumption || reflexivity.
Qed.


(** What [def_tail_re] and [group_pattern] capture, wherever they match. *)
Lemma def_tail_inv b a m :
  Sem def_tail_re (start_at b a) m -> exists t, caps m = [(1, t)].
Proof.
  unfold def_tail_re. intros H. sem_inv.
  match goal with H : Sem (Opt _) _ _ |- _ => destruct H as [H | ->] end;
    sem_inv; eexists; reflexivity.
Qed.

Lemma group_pattern_inv b a m :
  Sem group_pattern (start_at b a) m ->
  exists ds, run is_digit ds /\ caps m = [(1, ds)].
Proof.
  unfold group_pattern, Lit. intros H. sem_inv.
  match goal with H : Sem (seq_of _ _) _ _ |- _ => apply seq_of_sem in H as [_ ->] end.
  sem_inv. eexists. split; [eassumption | reflexivity].
Qed.

End PatternFacts.

(** ** The line loop *)

Module LineFacts.
Import Re ReFacts PatternFacts.

Lemma search_from_sound r a : forall b m,
  search_from r b a = Some m -> exists b' a', Sem r (start_at b' a') m.
Proof.
  induction a as [|c a IH]; intros b m H; simpl in H;
    destruct (exec r (start_at b _) Some) eqn:E.
  - injection H as <-. apply exec_sound in E as (st' & S & [= ->]). eauto.
  - discriminate.
  - injection H as <-. apply exec_sound in E as (st' & S & [= ->]). eauto.
  - eauto.
Qed.

Lemma group_strip_1 m t rest :
  caps m = (1, t) :: rest -> group_strip 1 m = Ok (strip t).
Proof. unfold group_strip, group. intros ->. reflexivity. Qed.

Lemma group_strip_2 m t w :
  caps m = [(2, t); (1, w)] -> group_strip 2 m = Ok (strip t).
Proof. unfold group_strip, group. intros ->. reflexivity. Qed.

Lemma group_strip_1' m t w :
  caps m = [(2, t); (1, w)] -> group_strip 1 m = Ok (strip w).
Proof. unfold group_strip, group. intros ->. reflexivity. Qed.

Lemma field_ok_strip s : field_ok (rstrip_dot (strip s)).
Proof. exists (strip s). split; [apply strip_trimmed | reflexivity]. Qed.

Lemma field_ok_nil : field_ok [].
Proof. exists []. split; [split|]; reflexivity. Qed.

(** Every line is processed without an error, in one of five ways. *)
Lemma process_line_cases c line :
  exists c', process_line c line = Ok c'
    /\ (c' = c
        \/ (exists w mn od, one_or_two_tokens w /\ field_ok mn
              /\ opt_ok field_ok od
              /\ c' = Cursor (save_if_worth c) (Some w) (Some mn) od)
        \/ (exists mn, field_ok mn
              /\ c' = Cursor (cur_entries c) (current_word c) (Some mn)
                             (current_definition c))
        \/ (exists d, field_ok d
              /\ c' = Cursor (cur_entries c) (current_word c)
                             (current_mnemonic c) (Some d))
        \/ (exists w d, one_or_two_tokens w /\ field_ok d
              /\ c' = Cursor (flushed c) (Some w) None (Some d))).
Proof.
  unfold process_line. destruct (strip line) as [|c0 l0] eqn:L; [eauto|].
  set (l := c0 :: l0) in *.
  destruct (rmatch word_mnemonic_re l) as [m|] eqn:M.
  - apply rmatch_sound, word_mnemonic_inv in M
      as (w & g1 & g2 & rest & g3 & t & tail & _ & Hw & _ & _ & _ & _ & _ & _ & _ & C).
    rewrite (group_strip_1' _ _ _ C), (group_strip_2 _ _ _ C). cbn [bind].
    rewrite (strip_id w) by apply tokens_trimmed, Hw.
    destruct (search def_tail_re (strip t)) as [dm|] eqn:D.
    + apply search_from_sound in D as (b' & a' & D).
      apply def_tail_inv in D as (d & D).
      rewrite (group_strip_1 _ _ _ D). cbn [bind].
      eexists. split; [reflexivity|]. right; left.
      exists w, (rstrip_dot (strip (sub def_cut_re [] (strip t)))),
        (Some (rstrip_dot (strip d))).
      splits; auto using field_ok_strip. apply field_ok_strip.
    + eexists. split; [reflexivity|]. right; left.
      exists w, (rstrip_dot (strip t)), None.
      splits; auto using field_ok_strip. exact I.
  - destruct (startswith (chars "mnemonic:") (lower l)).
    { eexists. split; [reflexivity|]. right; right; left.
      eexists. split; [apply field_ok_strip | reflexivity]. }
    destruct (startswith (chars "definition:") (lower l)).
    { eexists. split; [reflexivity|]. right; right; right; left.
      eexists. split; [apply field_ok_strip | reflexivity]. }
    destruct (rmatch word_def_re l) as [m|] eqn:W; [|eauto].
    apply rmatch_sound, word_def_inv in W
      as (w & g1 & g2 & t & tail & _ & Hw & _ & _ & _ & _ & C).
    rewrite (group_strip_1' _ _ _ C), (group_strip_2 _ _ _ C). cbn [bind].
    rewrite (strip_id w) by apply tokens_trimmed, Hw.
    assert (save_if_worth c = flushed c \/ is_none (current_word c) = false) as F.
    { unfold save_if_worth, worth_saving, flushed.
      destruct (current_word c); simpl; auto. }
    unfold flushed in *.
    destruct (is_none (current_word c)) eqn:N.
    + destruct F as [F | F]; [|discriminate]. rewrite F.
      eexists. split; [reflexivity|]. right; right; right; right.
      exists w, (rstrip_dot (strip t)). splits; auto using field_ok_strip.
    + eexists. split; [reflexivity|]. right; right; right; right.
      exists w, (rstrip_dot (strip t)). splits; auto using field_ok_strip.
Qed.

End LineFacts.

(** ** [parse_response] *)

Module ParseFacts.
Import Re ReFacts PatternFacts LineFacts.

Lemma or_empty_ok o : opt_ok field_ok o -> field_ok (or_empty o).
Proof. destruct o; simpl; auto using field_ok_nil. Qed.

Lemma save_if_worth_ok c : cursor_ok c -> Forall entry_ok (save_if_worth c).
Proof.
  intros (E & W & M & D). unfold save_if_worth, worth_saving.
  destruct (current_word c) as [w|] eqn:Cw; simpl; auto.
  destruct (_ && _); auto.
  apply Forall_app. split; auto. constructor; [|constructor].
  unfold entry_ok, current_entry. rewrite Cw. simpl.
  auto using or_empty_ok.
Qed.

Lemma flushed_ok c : cursor_ok c -> Forall entry_ok (flushed c).
Proof.
  intros (E & W & M & D). unfold flushed.
  destruct (current_word c) as [w|] eqn:Cw; simpl; auto.
  apply Forall_app. split; auto. constructor; [|constructor].
  unfold entry_ok, current_entry. rewrite Cw. simpl.
  auto using or_empty_ok.
Qed.

Lemma process_line_ok c line :
  cursor_ok c -> exists c', process_line c line = Ok c' /\ cursor_ok c'.
Proof.
  intros H. destruct (process_line_cases c line) as (c' & E & Cases).
  exists c'. split; [exact E|].
  pose proof (save_if_worth_ok c H) as S. pose proof (flushed_ok c H) as F.
  destruct H as (HE & HW & HM & HD).
  destruct Cases as [-> | [(w & mn & od & ? & ? & ? & ->) | [(mn & ? & ->)
    | [(d & ? & ->) | (w & d & ? & ? & ->)]]]]; unfold cursor_ok; simpl; auto.
Qed.

Lemma process_lines_ok lines : forall c,
  cursor_ok c -> exists c', process_lines c lines = Ok c' /\ cursor_ok c'.
Proof.
  induction lines as [|line lines IH]; intros c H; simpl; eauto.
  destruct (process_line_ok c line H) as (c1 & -> & H1). simpl. auto.
Qed.

Lemma parse_entries_ok content :
  exists es, parse_entries content = Ok es /\ Forall entry_ok es.
Proof.
  unfold parse_entries.
  destruct (process_lines_ok (split_on newline (strip content))
              (Cursor [] None None None)) as (c & -> & H).
  - unfold cursor_ok. simpl. auto.
  - simpl. eauto using save_if_worth_ok.
Qed.

(** Every match that [scan] reports is a match of the pattern. *)
Lemma scan_sound r a : forall b skip seg,
  Forall (fun m => exists b' a', Sem r (start_at b' a') (snd m))
         (fst (scan r b a skip seg)).
Proof.
  induction a as [|c a IH]; intros b skip seg.
  - destruct skip; simpl; auto.
    destruct (exec r (start_at b []) Some) eqn:E; simpl; auto.
    apply exec_sound in E as (st' & S & [= <-]).
    destruct (advanced [] st'); simpl; eauto.
  - destruct skip; [|apply IH]. cbn [scan].
    destruct (exec r (start_at b (c :: a)) Some) eqn:E; [|apply IH].
    apply exec_sound in E as (st' & S & [= <-]).
    destruct (advanced (c :: a) st'); cbn [fst push].
    + match goal with |- context [exec r ?s ?k] => destruct (exec r s k) eqn:E2 end.
      * apply exec_sound in E2 as (st2 & S2 & K).
        destruct (advanced (c :: a) st2 =? 0); [discriminate|].
        injection K as ->. cbn [fst push]. repeat constructor; eauto.
      * cbn [fst push]. constructor; eauto.
    + constructor; eauto.
Qed.

(** Without a match anywhere, [scan] returns the text whole. *)
Lemma scan_no_match r a : forall b seg,
  search_from r b a = None -> scan r b a 0 seg = ([], rev seg ++ a).
Proof.
  induction a as [|c a IH]; intros b seg H; simpl in *;
    destruct (exec r (start_at b _) Some); try discriminate.
  - rewrite app_nil_r. reflexivity.
  - rewrite IH by exact H. simpl. rewrite <- app_assoc. reflexivity.
Qed.

Lemma split_shape ms tail :
  Forall (fun m : str * mstate =>
            exists ds, run is_digit ds /\ caps (snd m) = [(1, ds)]) ms ->
  exists s0 pairs,
    flat_map (fun m => Some (fst m) :: map (fun i => group i (snd m)) (seq 1 1)) ms
      ++ [Some tail] = Some s0 :: flat_pairs pairs
    /\ Forall (fun dc => run is_digit (fst dc)) pairs.
Proof.
  induction 1 as [|m ms (ds & R & C) _ (s0 & pairs & E & F)].
  - exists tail, []. auto.
  - cbn [flat_map]. rewrite <- app_assoc, E.
    exists (fst m), ((ds, s0) :: pairs). split.
    + unfold group. rewrite C. reflexivity.
    + constructor; auto.
Qed.

Lemma parts_shape text :
  exists s0 pairs,
    split group_pattern 1 text = Some s0 :: flat_pairs pairs
    /\ Forall (fun dc => run is_digit (fst dc)) pairs.
Proof.
  unfold split. apply split_shape.
  eapply Forall_impl; [|apply scan_sound].
  intros m (b' & a' & S). apply group_pattern_inv in S. exact S.
Qed.

Lemma int_digits ds : run is_digit ds -> exists n, int (Some ds) = Ok n.
Proof.
  intros [N F]. unfold int, int_of_digits. simpl.
  destruct ds; [congruence|]. rewrite F. simpl. eauto.
Qed.

Lemma flat_pairs_length pairs : length (flat_pairs pairs) = 2 * length pairs.
Proof. induction pairs; simpl; lia. Qed.

(** The loop over [parts] ends without an error once [fuel] covers the
    groups left, and returns well-formed groups. *)
Lemma groups_loop_ok pairs : forall fuel pre groups,
  Forall (fun dc => run is_digit (fst dc)) pairs ->
  length pairs <= fuel -> pre <> [] ->
  Forall group_ok groups ->
  exists gs, groups_loop fuel (pre ++ flat_pairs pairs) (length pre) groups = Ok gs
             /\ Forall group_ok gs.
Proof.
  induction pairs as [|[ds content] pairs IH]; intros fuel pre groups D L P G.
  - simpl flat_pairs. rewrite app_nil_r.
    destruct fuel; simpl;
      (replace (length pre <? length pre - 1) with false
         by (symmetry; apply Nat.ltb_ge; lia)); eauto.
  - destruct fuel; [simpl in L; lia|]. cbn [groups_loop].
    replace (length pre <? length (pre ++ flat_pairs ((ds, content) :: pairs)) - 1)
      with true.
    2:{ symmetry. apply Nat.ltb_lt. rewrite length_app, flat_pairs_length.
        simpl. lia. }
    inversion D as [|? ? Dd D']; subst. simpl in Dd.
    rewrite nth_error_app2, Nat.sub_diag by lia. simpl nth_error.
    cbn [of_option bind]. destruct (int_digits ds Dd) as (n & ->). cbn [bind].
    rewrite nth_error_app2 by lia.
    replace (length pre + 1 - length pre) with 1 by lia. simpl nth_error.
    cbn [of_option bind].
    destruct (parse_entries_ok content) as (es & -> & Es). cbn [bind].
    replace (pre ++ flat_pairs ((ds, content) :: pairs))
      with ((pre ++ [Some ds; Some content]) ++ flat_pairs pairs)
      by (rewrite <- app_assoc; reflexivity).
    replace (length pre + 2) with (length (pre ++ [Some ds; Some content]))
      by (rewrite length_app; reflexivity).
    apply IH; auto.
    + simpl in L. lia.
    + destruct pre; discriminate.
    + destruct es; auto. apply Forall_app. split; auto.
      constructor; [|constructor]. split; [discriminate | exact Es].
Qed.

(** [parse_response] returns, whatever the text, and returns groups that
    have entries, each entry well formed. *)
Lemma parse_response_ok text :
  exists gs, parse_response text = Ok gs /\ Forall group_ok gs.
Proof.
  unfold parse_response.
  destruct (parts_shape (clean_response_text text)) as (s0 & pairs & -> & D).
  apply (groups_loop_ok pairs _ [Some s0] []); auto.
  - simpl. rewrite flat_pairs_length. lia.
  - discriminate.
Qed.

End ParseFacts.

(** ** The loop of [main] *)

Module MainFacts.
Import ParseFacts.

Lemma seen_In n s : seen n s = true <-> In n s.
Proof.
  unfold seen. rewrite existsb_exists. split.
  - intros (x & I & E). apply N.eqb_eq in E. congruence.
  - intros I. exists n. split; [exact I | apply N.eqb_refl].
Qed.

Lemma seen_not_In n s : seen n s = false <-> ~ In n s.
Proof. rewrite <- seen_In. destruct (seen n s); intuition congruence. Qed.

(** The accumulation of [main] computes [first_wins]. *)
Lemma add_groups_first_wins groups : forall all_groups seen_groups,
  fst (add_groups groups (all_groups, seen_groups))
  = all_groups ++ first_wins seen_groups groups.
Proof.
  unfold add_groups.
  induction groups as [|g groups IH]; intros all_groups seen_groups; simpl.
  - symmetry. apply app_nil_r.
  - destruct (seen (number g) seen_groups); simpl.
    + apply IH.
    + rewrite IH, <- app_assoc. reflexivity.
Qed.

Lemma add_groups_app gs1 gs2 acc :
  add_groups (gs1 ++ gs2) acc = add_groups gs2 (add_groups gs1 acc).
Proof. unfold add_groups. apply fold_left_app. Qed.

Lemma main_loop_ok responses : forall acc,
  exists parsed,
    parsed_as responses parsed
    /\ Forall (Forall group_ok) parsed
    /\ main_loop responses acc = Ok (add_groups (concat parsed) acc).
Proof.
  induction responses as [|r responses IH]; intros acc.
  - exists []. repeat split; constructor.
  - destruct (parse_response_ok r) as (gs & E & G).
    destruct (IH (add_groups gs acc)) as (parsed & P & F & M).
    exists (gs :: parsed). repeat split.
    + constructor; assumption.
    + constructor; assumption.
    + cbn [main_loop concat]. rewrite E. cbn [bind].
      rewrite M, add_groups_app. reflexivity.
Qed.

(** The corpus is [first_wins] of all parsed groups, in the blocks' order. *)
Lemma extract_ok responses :
  exists parsed,
    parsed_as responses parsed
    /\ Forall (Forall group_ok) parsed
    /\ extract responses = Ok (first_wins [] (concat parsed)).
Proof.
  destruct (main_loop_ok responses ([], [])) as (parsed & P & F & M).
  exists parsed. repeat split; auto.
  unfold extract. rewrite M. cbn [bind]. rewrite add_groups_first_wins.
  reflexivity.
Qed.

Lemma first_wins_In l : forall seen_groups g,
  In g (first_wins seen_groups l)
  <-> ~ In (number g) seen_groups /\ first_with_number l g.
Proof.
  induction l as [|g0 l IH]; intros s g; simpl.
  - split; [tauto|]. intros (_ & l1 & l2 & E & _). destruct l1; discriminate.
  - destruct (seen (number g0) s) eqn:S0.
    + apply seen_In in S0. rewrite IH. split.
      * intros (N & l1 & l2 & -> & F). split; auto.
        exists (g0 :: l1), l2. split; auto.
        intros h [<- | I]; [congruence | auto].
      * intros (N & l1 & l2 & E & F). split; auto.
        destruct l1 as [|h l1]; simpl in E; injection E as -> ->.
        { tauto. }
        exists l1, l2. split; auto. intros h' I. apply F. right. exact I.
    + apply seen_not_In in S0. simpl. rewrite IH. split.
      * intros [<- | (N & l1 & l2 & -> & F)].
        { split; auto. exists [], l. split; auto. }
        simpl in N. split; [tauto|].
        exists (g0 :: l1), l2. split; auto.
        intros h [<- | I]; [tauto | auto].
      * intros (N & l1 & l2 & E & F).
        destruct l1 as [|h l1]; simpl in E; injection E as -> ->; [left; auto|].
        right. split.
        { simpl. intros [E | I]; [|tauto]. apply (F h); [left|]; auto. }
        exists l1, l2. split; auto. intros h' I. apply F. right. exact I.
Qed.

Lemma first_wins_NoDup l : forall seen_groups,
  NoDup (map number (first_wins seen_groups l)).
Proof.
  induction l as [|g0 l IH]; intros s; simpl; [constructor|].
  destruct (seen (number g0) s); simpl; auto.
  constructor; auto. rewrite in_map_iff. intros (g & E & I).
  apply first_wins_In in I as [N _]. apply N. left. auto.
Qed.

Lemma first_wins_ok l s : Forall group_ok l -> Forall group_ok (first_wins s l).
Proof.
  intros H. rewrite Forall_forall in *. intros g I.
  apply first_wins_In in I as (_ & l1 & l2 & -> & _).
  apply H, in_elt.
Qed.

(** Every group of the corpus has entries, and every entry is well formed. *)
Lemma corpus_ok responses corpus :
  extract responses = Ok corpus -> Forall group_ok corpus.
Proof.
  destruct (extract_ok responses) as (parsed & _ & F & ->).
  intros [= <-]. apply first_wins_ok. rewrite Forall_forall in *.
  intros g I. apply in_concat in I as (gs & Igs & I).
  specialize (F gs Igs). rewrite Forall_forall in F. auto.
Qed.

End MainFacts.

(** ** The extractor's properties *)

Module ExtractorProps.
Import Re ReFacts PatternFacts LineFacts ParseFacts MainFacts.

Lemma field_ok_ends f :
  field_ok f ->
  begins is_space f = false /\ ends (is_char ".") f = false.
Proof.
  intros (s & [B _] & ->). split.
  - apply begins_rstrip_by, B.
  - apply ends_rstrip_by.
Qed.

Lemma entry_of_corpus responses corpus g e :
  extract responses = Ok corpus -> In g corpus -> In e (entries g) ->
  entry_ok e.
Proof.
  intros E G I. apply corpus_ok in E. rewrite Forall_forall in E.
  destruct (E g G) as [_ F]. rewrite Forall_forall in F. auto.
Qed.

(** C1, at the input where the code departs from it: after a mnemonic
    line whose mnemonic is only periods, a word-definition line appends the
    entry in progress although its mnemonic and its definition are both
    empty; the corpus then holds an entry with neither. *)
Theorem empty_entry_retained :
  extract [empty_mnemonic_block]
  = Ok [Group 1 [Entry (chars "Zeal") [] []; abate_entry]].
Proof. vm_compute. reflexivity. Qed.

(** C2, refuted as stated: whitespace that stood before the stripped
    periods stays at the end of a retained mnemonic and definition. *)
Lemma trailing_space_retained :
  extract [spaced_periods_block]
  = Ok [Group 1 [Entry (chars "Abate") (chars "a bait fades ")
                       (chars "to lessen ")]]
  /\ ends is_space (chars "a bait fades ") = true
  /\ ends is_space (chars "to lessen ") = true.
Proof. vm_compute. auto. Qed.

(** C2, amended: the mnemonic and the definition of every retained entry
    are a text trimmed of whitespace with its trailing periods stripped
    after that; they begin with no whitespace and end with no period. *)
Theorem fields_stripped responses corpus g e :
  extract responses = Ok corpus -> In g corpus -> In e (entries g) ->
  (field_ok (mnemonic e)
   /\ begins is_space (mnemonic e) = false
   /\ ends (is_char ".") (mnemonic e) = false)
  /\ (field_ok (definition e)
      /\ begins is_space (definition e) = false
      /\ ends (is_char ".") (definition e) = false).
Proof.
  intros E G I. destruct (entry_of_corpus _ _ _ _ E G I) as (_ & M & D).
  split; (split; [assumption | apply field_ok_ends; assumption]).
Qed.

Lemma fields_stripped_witness :
  ends (is_char ".") (chars "a bait fades ") = false
  /\ begins is_space (chars "to lessen ") = false.
Proof.
  pose proof (fields_stripped [spaced_periods_block]
    [Group 1 [Entry (chars "Abate") (chars "a bait fades ")
                    (chars "to lessen ")]]
    (Group 1 [Entry (chars "Abate") (chars "a bait fades ")
                    (chars "to lessen ")])
    (Entry (chars "Abate") (chars "a bait fades ") (chars "to lessen "))) as H.
  destruct H as [[_ [_ H1]] [_ [H2 _]]].
  - vm_compute. reflexivity.
  - simpl. left. reflexivity.
  - simpl. left. reflexivity.
  - split; assumption.
Defined.

(** C3, refuted as stated: the earliest block with "Group 5" holds no
    entry for it, and the corpus takes group 5 from the later block. *)
Lemma later_block_taken :
  split group_pattern 1 (clean_response_text bare_group_block)
  = [Some []; Some (chars "5"); Some (nl ++ chars "(to come)")]
  /\ parse_response bare_group_block = Ok []
  /\ extract [bare_group_block; abate_group_block]
     = Ok [Group 5 [abate_entry]].
Proof. vm_compute. auto. Qed.

(** C3, amended: the corpus holds exactly the groups that [parse_response]
    returned (those that retain an entry) and that no group of the same
    number precedes, in the order of the blocks and of the sections of a
    block; every later group of a number is ignored in full. *)
Theorem first_write_wins responses corpus :
  extract responses = Ok corpus ->
  exists parsed,
    parsed_as responses parsed
    /\ corpus = first_wins [] (concat parsed)
    /\ forall g, In g corpus <-> first_with_number (concat parsed) g.
Proof.
  intros E. destruct (extract_ok responses) as (parsed & P & _ & E').
  exists parsed. rewrite E' in E. injection E as <-. repeat split; auto.
  - intros I. apply first_wins_In in I. tauto.
  - intros F. apply first_wins_In. split; [intros []|exact F].
Qed.

Lemma first_write_wins_witness :
  exists parsed,
    parsed_as [abate_group_block; twice_group_block] parsed
    /\ [Group 5 [abate_entry]; Group 2 [abate_entry]]
       = first_wins [] (concat parsed)
    /\ forall g, In g [Group 5 [abate_entry]; Group 2 [abate_entry]]
                 <-> first_with_number (concat parsed) g.
Proof.
  apply (first_write_wins [abate_group_block; twice_group_block]).
  vm_compute. reflexivity.
Defined.

(** C4: no two groups of the corpus have the same number, also when one
    block has two sections of one number. *)
Theorem corpus_numbers_unique :
  (forall responses,
     exists corpus, extract responses = Ok corpus
                    /\ NoDup (map number corpus))
  /\ parse_response twice_group_block
     = Ok [Group 2 [abate_entry];
           Group 2 [Entry (chars "Zeal") [] (chars "great energy")]]
  /\ extract [twice_group_block] = Ok [Group 2 [abate_entry]].
Proof.
  split; [|vm_compute; auto].
  intros responses. destruct (extract_ok responses) as (parsed & _ & _ & E).
  eexists. split; [exact E | apply first_wins_NoDup].
Qed.








End ExtractorProps.

(** ** Lines of the two entry formats *)

Module LineProps.
Import Re ReFacts PatternFacts LineFacts.

(** A text splits in one way only into a run of a class and a character
    outside it. *)
Lemma span_unique (p : ascii -> bool) (l1 : str) : forall x r1 l2 y r2,
  forallb p l1 = true -> p x = false ->
  forallb p l2 = true -> p y = false ->
  l1 ++ x :: r1 = l2 ++ y :: r2 ->
  l1 = l2 /\ x = y /\ r1 = r2.
Proof.
  induction l1 as [|a l1 IH]; intros x r1 [|b l2] y r2 F1 Px F2 Py E;
    simpl in *; injection E as -> E.
  - auto.
  - apply andb_true_iff in F2 as [F2 _]. congruence.
  - apply andb_true_iff in F1 as [F1 _]. congruence.
  - apply andb_true_iff in F1 as [_ F1]. apply andb_true_iff in F2 as [_ F2].
    destruct (IH _ _ _ _ _ F1 Px F2 Py E) as (-> & -> & ->). auto.
Qed.

Lemma lstrip_by_app p g s :
  forallb p g = true -> lstrip_by p (g ++ s) = lstrip_by p s.
Proof.
  induction g as [|c g IH]; simpl; auto.
  intros H. apply andb_true_iff in H as [-> H]. auto.
Qed.

Lemma rstrip_by_app p s g :
  forallb p g = true -> rstrip_by p (s ++ g) = rstrip_by p s.
Proof.
  intros H. unfold rstrip_by. rewrite rev_app_distr, lstrip_by_app; auto.
  rewrite forallb_forall in *. intros x Hx. apply H, in_rev, Hx.
Qed.

Lemma startswith_split p : forall s,
  startswith p s = true -> s = p ++ skipn (length p) s.
Proof.
  induction p as [|a p IH]; intros [|b s] H; simpl in *; try discriminate; auto.
  apply andb_true_iff in H as [E H]. apply Ascii.eqb_eq in E as ->.
  f_equal. auto.
Qed.


Lemma char_facts c :
  is_alpha (lower_char c) = is_alpha c
  /\ (alpha_or_space c = true -> is_char "-" c = false)
  /\ (is_space c || is_char "-" c = true ->
      lower_char c = c /\ is_alpha c = false /\ c <> ":"%char)
  /\ (is_space c = true -> is_space (lower_char c) = true).
Proof.
  destruct c as [[] [] [] [] [] [] [] []]; vm_compute;
    intuition discriminate.
Qed.

Lemma forallb_impl (p q : ascii -> bool) s :
  (forall c, p c = true -> q c = true) ->
  forallb p s = true -> forallb q s = true.
Proof. rewrite !forallb_forall. auto. Qed.

Lemma tokens_no_dash w g :
  one_or_two_tokens w -> forallb is_space g = true ->
  forallb not_dash (w ++ g) = true.
Proof.
  intros W G. rewrite forallb_app. apply andb_true_iff. split.
  - apply (forallb_impl alpha_or_space); [|apply tokens_chars, W].
    intros c H. unfold not_dash. rewrite (proj1 (proj2 (char_facts c)) H).
    reflexivity.
  - apply (forallb_impl is_space); [|exact G].
    intros c H. unfold not_dash.
    rewrite (proj1 (proj2 (char_facts c))); auto.
    unfold alpha_or_space. rewrite H. apply orb_true_r.
Qed.

(** Two readings of one line as word, gap, dash and rest agree. *)
Lemma dash_unique w g1 r w' g1' r' :
  one_or_two_tokens w -> forallb is_space g1 = true ->
  one_or_two_tokens w' -> forallb is_space g1' = true ->
  w ++ g1 ++ "-"%char :: r = w' ++ g1' ++ "-"%char :: r' ->
  w = w' /\ r = r'.
Proof.
  intros W G W' G' E. rewrite !app_assoc in E.
  apply span_unique with (p := not_dash) in E as (E & _ & R);
    auto using tokens_no_dash.
  split; [|exact R].
  assert (rstrip_by is_space (w ++ g1) = rstrip_by is_space (w' ++ g1')) as S
      by congruence.
  rewrite !rstrip_by_app in S by assumption.
  rewrite !rstrip_by_id in S by (apply tokens_trimmed; assumption).
  exact S.
Qed.

(** The first run of letters of a word, and what follows it in a line. *)
Lemma tokens_head w g1 r :
  one_or_two_tokens w -> forallb is_space g1 = true ->
  exists w1 x r', w ++ g1 ++ "-"%char :: r = w1 ++ x :: r'
                  /\ run is_alpha w1
                  /\ is_space x || is_char "-" x = true.
Proof.
  intros [R | (w1 & g & w2 & -> & R1 & [Ng Fg] & R2)] G.
  - destruct g1 as [|x g1]; simpl.
    + exists w, "-"%char, r. auto.
    + simpl in G. apply andb_true_iff in G as [Gx _].
      exists w, x, (g1 ++ "-"%char :: r). rewrite Gx. auto.
  - destruct g as [|x g]; [congruence|]. simpl in Fg.
    apply andb_true_iff in Fg as [Gx _].
    exists w1, x, (g ++ w2 ++ g1 ++ "-"%char :: r). rewrite Gx.
    rewrite <- !app_assoc. auto.
Qed.

(** A line that opens with a word and a dash does not open with a
    keyword and a colon. *)
Lemma no_keyword_prefix kw w g1 r :
  forallb is_alpha kw = true ->
  one_or_two_tokens w -> forallb is_space g1 = true ->
  startswith (kw ++ [":"%char]) (lower (w ++ g1 ++ "-"%char :: r)) = false.
Proof.
  intros K W G.
  destruct (tokens_head w g1 r W G) as (w1 & x & r' & -> & [_ F1] & X).
  destruct (startswith _ _) eqn:S; [|reflexivity]. exfalso.
  apply startswith_split in S. unfold lower in S.
  rewrite map_app, <- app_assoc in S. simpl in S.
  destruct (char_facts x) as (_ & _ & Hx & _).
  destruct (Hx X) as (Lx & Ax & Nx).
  apply span_unique with (p := is_alpha) in S as (_ & E & _); auto.
  - congruence.
  - rewrite forallb_forall in *. intros c Ic.
    apply in_map_iff in Ic as (c' & <- & Ic').
    rewrite (proj1 (char_facts c')). auto.
  - rewrite Lx. exact Ax.
Qed.






(** C5: the line of the example, in a "Group 3" section, gives the entry
    of the example; and wherever the line stands in a section it makes
    that entry the entry in progress, after saving the one before it if
    that has a mnemonic or a definition. *)
Theorem ebullient_example :
  parse_response (chars "Group 3" ++ nl ++ ebullient_line)
  = Ok [Group 3 [ebullient_entry]]
  /\ forall c,
       process_line c ebullient_line
       = Ok (Cursor (save_if_worth c) (Some (word ebullient_entry))
               (Some (mnemonic ebullient_entry))
               (Some (definition ebullient_entry))).
Proof.
  split.
  - vm_compute. reflexivity.
  - intros c. vm_compute. reflexivity.
Qed.



End LineProps.

(** ** The renderer's properties *)

Module RenderProps.

Lemma fold_append {A} (f : A -> str) l : forall html,
  fold_left (fun html x => html ++ f x) l html = html ++ concat (map f l).
Proof.
  induction l as [|x l IH]; intros html; simpl.
  - symmetry. apply app_nil_r.
  - rewrite IH, <- app_assoc. reflexivity.
Qed.

Lemma fold_append_if {A} (p : A -> bool) (f : A -> str) l : forall html,
  fold_left (fun html x => if p x then html ++ f x else html) l html
  = html ++ concat (map f (filter p l)).
Proof.
  induction l as [|x l IH]; intros html; simpl.
  - symmetry. apply app_nil_r.
  - rewrite IH. destruct (p x); simpl; rewrite <- ?app_assoc; reflexivity.
Qed.

Lemma fold_ext {A B} (f g : A -> B -> A) l :
  (forall a b, f a b = g a b) ->
  forall a, fold_left f l a = fold_left g l a.
Proof.
  intros E. induction l as [|x l IH]; intros a; simpl; [|rewrite E]; auto.
Qed.

Lemma flat_map_flat_map {A B C} (f : A -> list B) (g : B -> list C) l :
  flat_map g (flat_map f l) = flat_map (fun x => flat_map g (f x)) l.
Proof.
  induction l as [|x l IH]; simpl; [reflexivity|].
  rewrite flat_map_app, IH. reflexivity.
Qed.

(** The three replacements in a row escape each character once. *)
Lemma escape_single_pass s : escape s = escape_once s.
Proof.
  unfold escape, escape_once, replace. rewrite !flat_map_flat_map.
  apply flat_map_ext. intros c.
  destruct c as [[] [] [] [] [] [] [] []]; reflexivity.
Qed.

Lemma render_entry_row html e : render_entry html e = html ++ entry_row e.
Proof.
  unfold render_entry, entry_row. rewrite !escape_single_pass. reflexivity.
Qed.

Lemma render_group_table html g : render_group html g = html ++ group_table g.
Proof.
  unfold render_group, group_table.
  rewrite (fold_ext render_entry (fun html e => html ++ entry_row e))
    by apply render_entry_row.
  rewrite fold_append, <- !app_assoc. reflexivity.
Qed.

Lemma render_toc_blocks d html :
  render_toc d html = html ++ concat (map (toc_block d) episodes).
Proof.
  unfold render_toc.
  rewrite (fold_ext _ (fun html ep => html ++ toc_block d ep)).
  - apply fold_append.
  - intros a ep. rewrite fold_append_if. unfold toc_block.
    rewrite <- !app_assoc. reflexivity.
Qed.

Lemma render_sections_body d html :
  render_sections d html = html ++ concat (map (body_section d) episodes).
Proof.
  unfold render_sections.
  rewrite (fold_ext _ (fun html ep => html ++ body_section d ep)).
  - apply fold_append.
  - intros a ep. unfold body_section.
    destruct (episode_groups d ep) as [|g gs]; [symmetry; apply app_nil_r|].
    rewrite (fold_ext render_group (fun html g => html ++ group_table g))
      by apply render_group_table.
    rewrite fold_append, <- !app_assoc. reflexivity.
Qed.

(** The document is its head, a block per episode, and a section per
    episode that has a group. *)
Lemma generate_html_parts all_groups :
  generate_html all_groups
  = html_head (total_words (sort_groups all_groups))
              (length (sort_groups all_groups))
    ++ concat (map (toc_block (group_lookup (sort_groups all_groups))) episodes)
    ++ nav_close
    ++ concat (map (body_section (group_lookup (sort_groups all_groups)))
                   episodes)
    ++ html_tail.
Proof.
  unfold generate_html. cbv zeta.
  rewrite render_sections_body, render_toc_blocks, <- !app_assoc. reflexivity.
Qed.

Lemma insert_group_In g l x : In x (insert_group g l) <-> x = g \/ In x l.
Proof.
  induction l as [|h l IH]; simpl.
  - intuition.
  - destruct (number g <? number h)%N; simpl; rewrite ?IH; intuition.
Qed.

Lemma sort_groups_In l x : In x (sort_groups l) <-> In x l.
Proof.
  unfold sort_groups.
  assert (forall acc, In x (fold_left (fun s g => insert_group g s) l acc)
                      <-> In x acc \/ In x l) as H.
  { induction l as [|g l IH]; intros acc; simpl; [tauto|].
    rewrite IH, insert_group_In. intuition. }
  rewrite H. simpl. tauto.
Qed.

Lemma lookup_fold l : forall (d0 : dict) n,
  (forall g, fold_left (fun d g => dict_set d (number g) g) l d0 n = Some g ->
             (In g l /\ number g = n) \/ d0 n = Some g)
  /\ (fold_left (fun d g => dict_set d (number g) g) l d0 n = None <->
      d0 n = None /\ forall g, In g l -> number g <> n).
Proof.
  induction l as [|h l IH]; intros d0 n; simpl.
  - split; [auto|]. intuition.
  - destruct (IH (dict_set d0 (number h) h) n) as [S N]. split.
    + intros g E. apply S in E as [[I E] | E]; [auto|].
      unfold dict_set in E. destruct (N.eqb_spec n (number h)); auto.
      injection E as <-. auto.
    + rewrite N. unfold dict_set. destruct (N.eqb_spec n (number h)).
      * split; [intros [X _]; discriminate|]. intros [_ X].
        elim (X h); auto.
      * split; intros [X Y]; split; auto.
        intros g [<- | I]; auto.
Qed.

(** The lookup finds a group of the corpus for a number, and only misses
    a number that no group of the corpus has. *)
Lemma group_lookup_spec all_groups n :
  (forall g, group_lookup (sort_groups all_groups) n = Some g ->
             In g all_groups /\ number g = n)
  /\ (has_key (group_lookup (sort_groups all_groups)) n = true <->
      exists g, In g all_groups /\ number g = n).
Proof.
  destruct (lookup_fold (sort_groups all_groups) (fun _ => None) n) as [S N].
  change (fold_left (fun d g => dict_set d (number g) g)
            (sort_groups all_groups) (fun _ => None))
    with (group_lookup (sort_groups all_groups)) in S, N.
  unfold has_key. set (r := group_lookup (sort_groups all_groups) n) in *.
  split.
  - intros g E. apply S in E as [[I E] | E]; [|discriminate].
    rewrite sort_groups_In in I. auto.
  - destruct r as [g|].
    + split; auto. intros _.
      destruct (S g eq_refl) as [[I E] | E]; [|discriminate].
      rewrite sort_groups_In in I. eauto.
    + split; [discriminate|]. intros (g & I & Eg).
      destruct (proj1 N eq_refl) as [_ X]. elim (X g); auto.
      apply sort_groups_In, I.
Qed.

Lemma contains_trans a b c : contains a b -> contains b c -> contains a c.
Proof.
  intros (p1 & q1 & ->) (p2 & q2 & ->). exists (p1 ++ p2), (q2 ++ q1).
  rewrite <- !app_assoc. reflexivity.
Qed.

Lemma contains_app_r a b x : contains b x -> contains (a ++ b) x.
Proof.
  intros (p & q & ->). exists (a ++ p), q. rewrite <- !app_assoc. reflexivity.
Qed.

Lemma contains_app_l a b x : contains a x -> contains (a ++ b) x.
Proof.
  intros (p & q & ->). exists p, (q ++ b). rewrite <- !app_assoc. reflexivity.
Qed.

Lemma contains_concat_map {A} (f : A -> str) l x :
  In x l -> contains (concat (map f l)) (f x).
Proof.
  intros I. apply in_split in I as (l1 & l2 & ->).
  exists (concat (map f l1)), (concat (map f l2)).
  rewrite map_app, concat_app. reflexivity.
Qed.

Lemma group_table_row g e : In e (entries g) -> contains (group_table g) (entry_row e).
Proof.
  intros I. unfold group_table.
  apply contains_app_r, contains_app_l, contains_concat_map, I.
Qed.

Lemma body_section_table d ep g :
  In g (episode_groups d ep) -> contains (body_section d ep) (group_table g).
Proof.
  intros I. unfold body_section.
  destruct (episode_groups d ep) as [|g0 gs]; [destruct I|].
  apply contains_app_r, contains_app_l, contains_concat_map, I.
Qed.

(** C7: the three replacements escape each character of a text once,
    [&] to [&amp;], [<] to [&lt;], [>] to [&gt;]; a row holds the word in
    title case, not escaped, and the mnemonic and the definition escaped;
    the document holds that row for every entry of every group that an
    episode lists.  "5 < 10 & rising" is rendered "5 &lt; 10 &amp; rising". *)
Theorem cells_escaped :
  (forall s, escape s = escape_once s)
  /\ (forall html e,
        render_entry html e
        = html ++ table_row (title (word e)) (escape_once (mnemonic e))
                            (escape_once (definition e)))
  /\ (forall all_groups ep g e,
        In ep episodes ->
        In g (episode_groups (group_lookup (sort_groups all_groups)) ep) ->
        In e (entries g) ->
        exists pre post,
          generate_html all_groups
          = pre ++ table_row (title (word e)) (escape_once (mnemonic e))
                             (escape_once (definition e)) ++ post)
  /\ escape (chars "5 < 10 & rising") = chars "5 &lt; 10 &amp; rising"
  /\ render_entry [] (Entry (chars "zeal") (chars "a < b")
                            (chars "5 < 10 & rising"))
     = chars "            <tr><td>Zeal</td><td>a &lt; b</td><td>5 &lt; 10 &amp; rising</td></tr>"
       ++ nl.
Proof.
  split; [exact escape_single_pass|].
  split; [exact render_entry_row|].
  split; [|split; vm_compute; reflexivity].
  intros all_groups ep g e Iep Ig Ie. rewrite generate_html_parts.
  change (contains
            (html_head (total_words (sort_groups all_groups))
                       (length (sort_groups all_groups))
             ++ concat (map (toc_block (group_lookup (sort_groups all_groups)))
                            episodes)
             ++ nav_close
             ++ concat (map (body_section (group_lookup (sort_groups all_groups)))
                            episodes)
             ++ html_tail)
            (entry_row e)).
  apply contains_app_r, contains_app_r, contains_app_r, contains_app_l.
  eapply contains_trans; [apply contains_concat_map, Iep|].
  eapply contains_trans; [apply body_section_table, Ig|].
  apply group_table_row, Ie.
Qed.



End RenderProps.

(** * Further properties *)

(** ** The corpus as blocks are added *)

Module CorpusProps.
Import ParseFacts MainFacts.

Lemma parsed_as_unique responses : forall p1 p2,
  parsed_as responses p1 -> parsed_as responses p2 -> p1 = p2.
Proof.
  unfold parsed_as.
  induction responses as [|r rs IH]; intros p1 p2 H1 H2;
    inversion H1; inversion H2; subst; auto.
  f_equal; [congruence | auto].
Qed.

Lemma parsed_as_app rs1 rs2 parsed :
  parsed_as (rs1 ++ rs2) parsed ->
  exists p1 p2, parsed = p1 ++ p2 /\ parsed_as rs1 p1 /\ parsed_as rs2 p2.
Proof.
  unfold parsed_as. intros H. apply Forall2_app_inv_l in H as (p1 & p2 & H1 & H2 & ->).
  eauto.
Qed.

Lemma parsed_as_In responses parsed gs :
  parsed_as responses parsed -> In gs parsed ->
  exists r, In r responses /\ parse_response r = Ok gs.
Proof.
  unfold parsed_as. induction 1 as [|r p rs ps E _ IH]; intros I; [destruct I|].
  destruct I as [<- | I].
  - exists r. split; [left; reflexivity | exact E].
  - destruct (IH I) as (r' & I' & E'). exists r'. split; [right|]; assumption.
Qed.

Lemma parsed_as_In_l responses parsed r :
  parsed_as responses parsed -> In r responses ->
  exists gs, In gs parsed /\ parse_response r = Ok gs.
Proof.
  unfold parsed_as. induction 1 as [|r0 p rs ps E _ IH]; intros I; [destruct I|].
  destruct I as [<- | I].
  - exists p. split; [left; reflexivity | exact E].
  - destruct (IH I) as (gs & I' & E'). exists gs. split; [right|]; assumption.
Qed.

(** [first_wins] reads the seen numbers by membership only. *)
Lemma first_wins_ext l : forall s1 s2,
  (forall n, In n s1 <-> In n s2) -> first_wins s1 l = first_wins s2 l.
Proof.
  induction l as [|g l IH]; intros s1 s2 H; simpl; [reflexivity|].
  assert (seen (number g) s1 = seen (number g) s2) as ->.
  { destruct (seen (number g) s2) eqn:S2.
    - apply seen_In. apply H. apply seen_In. exact S2.
    - apply seen_not_In. rewrite H. apply seen_not_In. exact S2. }
  destruct (seen (number g) s2); [apply IH; exact H|].
  f_equal. apply IH. intros n. simpl. rewrite H. tauto.
Qed.

Lemma first_wins_app l1 : forall s l2,
  first_wins s (l1 ++ l2)
  = first_wins s l1 ++ first_wins (numbers (first_wins s l1) ++ s) l2.
Proof.
  induction l1 as [|g l1 IH]; intros s l2; simpl; [reflexivity|].
  destruct (seen (number g) s) eqn:S; [apply IH|].
  simpl. f_equal. rewrite IH. f_equal. apply first_wins_ext.
  intros n. unfold numbers. simpl. rewrite !in_app_iff. simpl. tauto.
Qed.

Lemma first_wins_all_seen l s :
  (forall g, In g l -> In (number g) s) -> first_wins s l = [].
Proof.
  induction l as [|g l IH]; intros H; simpl; [reflexivity|].
  assert (seen (number g) s = true) as -> by (apply seen_In, H; left; reflexivity).
  apply IH. intros g' I. apply H. right. exact I.
Qed.

(** No number of [l] is lost: some kept group has it, or it was seen. *)
Lemma first_wins_covers l : forall s g,
  In g l -> In (number g) s \/ In (number g) (numbers (first_wins s l)).
Proof.
  induction l as [|g0 l IH]; intros s g I; [destruct I|]. simpl.
  destruct (seen (number g0) s) eqn:S.
  - destruct I as [<- | I]; [left; apply seen_In, S | apply IH, I].
  - unfold numbers. simpl. destruct I as [<- | I]; [right; left; reflexivity|].
    destruct (IH (number g0 :: s) g I) as [[E | J] | J]; auto.
Qed.

(** X1: a group that [parse_response] returns has at least one entry: a
    section that retains none is dropped, and so no group of the corpus is
    empty. *)
Theorem no_empty_group :
  (forall text groups g,
     parse_response text = Ok groups -> In g groups -> entries g <> [])
  /\ (forall responses corpus g,
        extract responses = Ok corpus -> In g corpus -> entries g <> []).
Proof.
  split.
  - intros text groups g E I.
    destruct (parse_response_ok text) as (gs & E' & F).
    rewrite E' in E. injection E as <-.
    rewrite Forall_forall in F. apply (F g I).
  - intros responses corpus g E I. apply corpus_ok in E.
    rewrite Forall_forall in E. apply (E g I).
Qed.

Lemma no_empty_group_witness : entries (Group 5 [abate_entry]) <> [].
Proof.
  apply (proj2 no_empty_group [bare_group_block; abate_group_block]
               [Group 5 [abate_entry]]).
  - vm_compute. reflexivity.
  - left. reflexivity.
Defined.

Lemma extract_app rs1 rs2 c1 :
  extract rs1 = Ok c1 ->
  exists parsed2,
    parsed_as rs2 parsed2
    /\ extract (rs1 ++ rs2)
       = Ok (c1 ++ first_wins (numbers c1) (concat parsed2)).
Proof.
  intros E1.
  destruct (extract_ok rs1) as (p1 & P1 & _ & E1'). rewrite E1' in E1.
  injection E1 as <-.
  destruct (extract_ok (rs1 ++ rs2)) as (p & P & _ & ->).
  apply parsed_as_app in P as (q1 & q2 & -> & Q1 & Q2).
  rewrite (parsed_as_unique _ _ _ Q1 P1). exists q2. split; [exact Q2|].
  rewrite concat_app, first_wins_app, app_nil_r. reflexivity.
Qed.



(** X3: blocks that were already processed add nothing when they come
    again. *)
Theorem known_blocks_add_nothing rs rs' :
  (forall r, In r rs' -> In r rs) ->
  extract (rs ++ rs') = extract rs.
Proof.
  intros H. destruct (extract_ok rs) as (p & P & _ & E).
  destruct (extract_app rs rs' _ E) as (p' & P' & ->). rewrite E.
  rewrite (first_wins_all_seen (concat p')); [rewrite app_nil_r; reflexivity|].
  intros g I. apply in_concat in I as (gs & Igs & Ig).
  destruct (parsed_as_In _ _ _ P' Igs) as (r & Ir & Er).
  destruct (parsed_as_In_l _ _ _ P (H r Ir)) as (gs' & Igs' & Er').
  assert (gs' = gs) as -> by congruence.
  destruct (first_wins_covers (concat p) [] g) as [[] | C]; [|exact C].
  apply in_concat. eauto.
Qed.

Lemma known_blocks_add_nothing_witness :
  extract ([bare_group_block; abate_group_block] ++ [abate_group_block])
  = extract [bare_group_block; abate_group_block].
Proof.
  apply known_blocks_add_nothing. intros r [<- | []]. right. left. reflexivity.
Defined.

(** X4: the numbers of the corpus are the numbers of the groups that
    [parse_response] returns for the blocks, no more and no fewer. *)
Theorem corpus_numbers_complete responses corpus n :
  extract responses = Ok corpus ->
  (In n (numbers corpus)
   <-> exists r groups g,
         In r responses /\ parse_response r = Ok groups
         /\ In g groups /\ number g = n).
Proof.
  intros E. destruct (extract_ok responses) as (p & P & _ & E').
  rewrite E' in E. injection E as <-. split.
  - intros I. apply in_map_iff in I as (g & <- & I).
    apply first_wins_In in I as (_ & l1 & l2 & C & _).
    assert (In g (concat p)) as J by (rewrite C; apply in_elt).
    apply in_concat in J as (gs & Igs & Ig).
    destruct (parsed_as_In _ _ _ P Igs) as (r & Ir & Er). eauto 8.
  - intros (r & gs & g & Ir & Er & Ig & <-).
    destruct (parsed_as_In_l _ _ _ P Ir) as (gs' & Igs' & Er').
    assert (gs' = gs) as -> by congruence.
    destruct (first_wins_covers (concat p) [] g) as [[] | C]; [|exact C].
    apply in_concat. eauto.
Qed.

Lemma corpus_numbers_complete_witness :
  In 5%N (numbers [Group 5 [abate_entry]])
  <-> exists r groups g,
        In r [bare_group_block; abate_group_block]
        /\ parse_response r = Ok groups /\ In g groups /\ number g = 5%N.
Proof.
  apply (corpus_numbers_complete [bare_group_block; abate_group_block]).
  vm_compute. reflexivity.
Defined.

End CorpusProps.

(** ** The document *)


Module DocumentProps.
Import RenderProps.

Lemma insert_group_length g l : length (insert_group g l) = S (length l).
Proof.
  induction l as [|h l IH]; simpl; [reflexivity|].
  destruct (number g <? number h)%N; simpl; auto.
Qed.

Lemma insert_group_words g l :
  words (insert_group g l) = length (entries g) + words l.
Proof.
  unfold words. induction l as [|h l IH]; simpl; [reflexivity|].
  destruct (number g <? number h)%N; simpl; [reflexivity|].
  rewrite IH. lia.
Qed.

Lemma sort_groups_counts l :
  length (sort_groups l) = length l /\ words (sort_groups l) = words l.
Proof.
  unfold sort_groups.
  assert (forall acc,
            length (fold_left (fun s g => insert_group g s) l acc)
            = length acc + length l
            /\ words (fold_left (fun s g => insert_group g s) l acc)
               = words acc + words l) as H.
  { induction l as [|g l IH]; intros acc; simpl.
    - unfold words. simpl. lia.
    - destruct (IH (insert_group g acc)) as [-> ->].
      rewrite insert_group_length, insert_group_words.
      unfold words. simpl. lia. }
  destruct (H []) as [-> ->]. auto.
Qed.

Lemma total_words_sum l : total_words l = words l.
Proof.
  unfold total_words, words.
  assert (forall a, fold_left (fun n g => n + length (entries g)) l a
                    = a + list_sum (map (fun g => length (entries g)) l)) as H.
  { induction l as [|g l IH]; intros a; simpl; [lia|]. rewrite IH. lia. }
  apply H.
Qed.

Lemma words_permutation l l' : Permutation l l' -> words l = words l'.
Proof.
  unfold words. induction 1; simpl; lia.
Qed.

Lemma number_unique l g g' :
  NoDup (numbers l) -> In g l -> In g' l -> number g = number g' -> g = g'.
Proof.
  unfold numbers. induction l as [|h l IH]; intros D I I' E; [destruct I|].
  simpl in D. inversion D as [|? ? N D']; subst.
  destruct I as [<- | I], I' as [<- | I']; auto.
  - elim N. rewrite E. apply in_map, I'.
  - elim N. rewrite <- E. apply in_map, I.
Qed.

(** With one group for a number, the lookup finds that group. *)
Lemma lookup_unique l n g :
  NoDup (numbers l) ->
  (group_lookup (sort_groups l) n = Some g <-> In g l /\ number g = n).
Proof.
  intros D. destruct (group_lookup_spec l n) as [S K]. split; [apply S|].
  intros [I E].
  assert (has_key (group_lookup (sort_groups l)) n = true) as H
      by (apply K; eauto).
  unfold has_key in H.
  destruct (group_lookup (sort_groups l) n) as [g'|] eqn:L; [|discriminate].
  destruct (S g' eq_refl) as [I' E']. f_equal.
  apply (number_unique l); congruence.
Qed.

Lemma option_by_spec {A} (P : A -> Prop) (o1 o2 : option A) :
  (forall a, o1 = Some a <-> P a) -> (forall a, o2 = Some a <-> P a) ->
  o1 = o2.
Proof.
  intros H1 H2. destruct o1 as [a|].
  - symmetry. apply H2, H1. reflexivity.
  - destruct o2 as [b|]; [|reflexivity].
    assert (None = Some b) as X by (apply H1, H2; reflexivity).
    discriminate.
Qed.

(** The blocks and sections read the lookup at the listed numbers only. *)
Lemma after_head_ext (d d' : dict) :
  (forall n, listed n = true -> d n = d' n) -> after_head d = after_head d'.
Proof.
  intros H. unfold after_head.
  assert (forall ep, In ep episodes ->
                     forall n, In n (ep_groups ep) -> d n = d' n) as L.
  { intros ep Iep n In_. apply H.
    assert (forallb (fun ep => forallb listed (ep_groups ep)) episodes = true)
      as F by reflexivity.
    rewrite forallb_forall in F. specialize (F ep Iep).
    rewrite forallb_forall in F. auto. }
  assert (forall ep, In ep episodes ->
                     toc_block d ep = toc_block d' ep
                     /\ body_section d ep = body_section d' ep) as B.
  { intros ep Iep. specialize (L ep Iep).
    unfold toc_block, body_section, episode_groups, has_key.
    induction (ep_groups ep) as [|n l IH]; [auto|].
    destruct IH as [T S]; [intros m I; apply L; right; exact I|].
    assert (filter (fun gnum => match d gnum with Some _ => true | None => false end) l
            = filter (fun gnum => match d' gnum with Some _ => true | None => false end) l)
      as F.
    { apply filter_ext_in. intros m I. rewrite (L m); [reflexivity | right; exact I]. }
    assert (flat_map (fun gnum => match d gnum with Some g => [g] | None => [] end) l
            = flat_map (fun gnum => match d' gnum with Some g => [g] | None => [] end) l)
      as G.
    { rewrite !flat_map_concat_map. f_equal. apply map_ext_in.
      intros m I. rewrite (L m); [reflexivity | right; exact I]. }
    simpl. rewrite (L n) by (left; reflexivity). rewrite F, G. auto. }
  f_equal; [|f_equal; f_equal].
  - f_equal. apply map_ext_in. intros ep I. apply B, I.
  - f_equal. apply map_ext_in. intros ep I. apply B, I.
Qed.

Lemma generate_html_after_head all_groups :
  generate_html all_groups
  = html_head (words all_groups) (length all_groups)
    ++ after_head (group_lookup (sort_groups all_groups)).
Proof.
  rewrite generate_html_parts, total_words_sum.
  destruct (sort_groups_counts all_groups) as [-> ->]. reflexivity.
Qed.

Lemma numbers_filter_NoDup (p : VocabGroup -> bool) l :
  NoDup (numbers l) -> NoDup (numbers (filter p l)).
Proof.
  unfold numbers. induction l as [|g l IH]; intros D; simpl; [constructor|].
  inversion D as [|? ? N D']; subst.
  destruct (p g); simpl; auto. constructor; auto.
  intros I. apply N. apply in_map_iff in I as (h & E & I).
  apply filter_In in I as [I _]. rewrite <- E. apply in_map, I.
Qed.


(** X5: with one group for a number, the document does not depend on the
    order in which the groups are given. *)
Theorem document_order_free gs gs' :
  Permutation gs gs' -> NoDup (numbers gs) ->
  generate_html gs = generate_html gs'.
Proof.
  intros P D. rewrite !generate_html_after_head.
  rewrite (words_permutation _ _ P), (Permutation_length P). f_equal.
  apply after_head_ext. intros n _.
  apply (option_by_spec (fun g => In g gs /\ number g = n)).
  - intros g. apply lookup_unique, D.
  - intros g. rewrite lookup_unique.
    + split; intros [I E]; split; auto.
      * apply (Permutation_in _ (Permutation_sym P)), I.
      * apply (Permutation_in _ P), I.
    + unfold numbers. apply (Permutation_NoDup (Permutation_map number P)), D.
Qed.

Lemma document_order_free_witness :
  generate_html [Group 7 [abate_entry]; Group 1 [ebullient_entry]]
  = generate_html [Group 1 [ebullient_entry]; Group 7 [abate_entry]].
Proof.
  apply document_order_free.
  - apply perm_swap.
  - repeat constructor; simpl; intuition discriminate.
Defined.

(** X6: with one group for a number, a group whose number is not from 1
    to 34 is counted in the banner, words and all, and stands nowhere
    else in the document: after its head the document is that of the
    groups numbered 1 to 34. *)
Theorem unlisted_groups_counted_only gs :
  NoDup (numbers gs) ->
  generate_html gs
  = html_head (words gs) (length gs)
    ++ after_head
         (group_lookup (sort_groups (filter (fun g => listed (number g)) gs)))
  /\ generate_html (filter (fun g => listed (number g)) gs)
     = html_head (words (filter (fun g => listed (number g)) gs))
                 (length (filter (fun g => listed (number g)) gs))
       ++ after_head
            (group_lookup
               (sort_groups (filter (fun g => listed (number g)) gs))).
Proof.
  intros D. split; [|apply generate_html_after_head].
  rewrite generate_html_after_head. f_equal.
  apply after_head_ext. intros n L.
  apply (option_by_spec (fun g => In g gs /\ number g = n)).
  - intros g. apply lookup_unique, D.
  - intros g. rewrite lookup_unique by apply numbers_filter_NoDup, D.
    rewrite filter_In. split; [tauto|]. intros [I E]. rewrite E. auto.
Qed.

Lemma unlisted_groups_counted_only_witness :
  generate_html [Group 40 [abate_entry]; Group 1 [ebullient_entry]]
  = html_head 2 2
    ++ after_head (group_lookup (sort_groups [Group 1 [ebullient_entry]])).
Proof.
  refine (proj1 (unlisted_groups_counted_only
                   [Group 40 [abate_entry]; Group 1 [ebullient_entry]] _)).
  repeat constructor; simpl; intuition discriminate.
Defined.



Lemma escape_char_cases c :
  (is_markup c = false /\ escape_char c = [c])
  \/ (c = "&"%char /\ escape_char c = chars "&amp;")
  \/ (c = "<"%char /\ escape_char c = chars "&lt;")
  \/ (c = ">"%char /\ escape_char c = chars "&gt;").
Proof.
  destruct c as [[] [] [] [] [] [] [] []]; vm_compute; auto.
Qed.

Lemma escape_once_inj s1 : forall s2,
  escape_once s1 = escape_once s2 -> s1 = s2.
Proof.
  unfold escape_once.
  induction s1 as [|c1 s1 IH]; intros [|c2 s2] H; simpl in H.
  - reflexivity.
  - destruct (escape_char_cases c2) as [[_ E] | [[_ E] | [[_ E] | [_ E]]]];
      rewrite E in H; discriminate.
  - destruct (escape_char_cases c1) as [[_ E] | [[_ E] | [[_ E] | [_ E]]]];
      rewrite E in H; discriminate.
  - destruct (escape_char_cases c1) as [[M1 E1] | [[-> E1] | [[-> E1] | [-> E1]]]];
      destruct (escape_char_cases c2) as [[M2 E2] | [[-> E2] | [[-> E2] | [-> E2]]]];
      rewrite ?E1, ?E2 in H; simpl in H;
      try discriminate;
      try (injection H as H; f_equal; apply IH; exact H);
      try (injection H as -> H; discriminate);
      try (injection H as <- H; discriminate).
    injection H as -> H. f_equal. apply IH, H.
Qed.

(** X8: an escaped text has neither [<] nor [>], and two texts that
    escape to the same text are the same text. *)
Theorem escape_safe_and_faithful :
  (forall s, forallb (fun c => negb (is_angle c)) (escape s) = true)
  /\ (forall s1 s2, escape s1 = escape s2 -> s1 = s2).
Proof.
  split.
  - intros s. rewrite escape_single_pass. unfold escape_once.
    induction s as [|c s IH]; [reflexivity|]. simpl.
    rewrite forallb_app, IH, andb_true_r.
    destruct (escape_char_cases c) as [[M E] | [[_ E] | [[_ E] | [_ E]]]];
      rewrite E; try reflexivity.
    simpl. rewrite andb_true_r. unfold is_markup in M. unfold is_angle.
    destruct (is_char "<" c), (is_char ">" c);
      rewrite ?orb_true_r in M; try discriminate; reflexivity.
  - intros s1 s2. rewrite !escape_single_pass. apply escape_once_inj.
Qed.

End DocumentProps.

(** ** Lines that carry no word *)

Module PlainLineProps.
Import Re ReFacts PatternFacts LineFacts ParseFacts LineProps.

Lemma scan_skip r w : forall b rest seg,
  scan r b (w ++ rest) (length w) seg = scan r (rev w ++ b) rest 0 seg.
Proof.
  induction w as [|c w IH]; intros b rest seg; [reflexivity|].
  simpl. rewrite IH, <- app_assoc. reflexivity.
Qed.

(** A pattern that opens with [^] matches at the start only. *)
Lemma anchored_search r a : forall b,
  b <> [] -> search_from (Seq (Bol false) r) b a = None.
Proof.
  induction a as [|c a IH]; intros b N; simpl;
    (destruct b as [|x b]; [congruence|]); simpl; [reflexivity|].
  apply IH. discriminate.
Qed.

(** [re.sub] of such a pattern by nothing cuts the match off the start. *)
Lemma sub_anchored r l p st :
  exec (Seq (Bol false) r) (start_at [] l) Some = Some st ->
  l = p ++ after st -> p <> [] ->
  sub (Seq (Bol false) r) [] l = after st.
Proof.
  intros E L P. unfold sub.
  assert (scan (Seq (Bol false) r) [] l 0 [] = ([([], st)], after st)) as ->;
    [|reflexivity].
  destruct p as [|c p]; [congruence|].
  subst l. cbn [app] in *. cbn [scan]. rewrite E.
  assert (advanced (c :: p ++ after st) st = S (length p)) as ->.
  { unfold advanced. cbn [length]. rewrite length_app. lia. }
  assert (rev p ++ [c] <> []) as Nb by (destruct (rev p); discriminate).
  rewrite scan_skip, (scan_no_match _ _ _ _ (anchored_search r _ _ Nb)).
  reflexivity.
Qed.

(** Cutting a keyword and the whitespace after it off the start. *)
Lemma sub_keyword kw l :
  startswith (lower (chars kw)) (lower l) = true ->
  length (chars kw) <> 0 ->
  exists g a,
    skipn (length (chars kw)) l = g ++ a /\ forallb is_space g = true
    /\ sub (cat [Bol false; LitI kw; spaces]) [] l = a.
Proof.
  intros S N. cbn [cat].
  set (k := length (chars kw)) in *.
  assert (l = firstn k l ++ skipn k l) as L by (symmetry; apply firstn_skipn).
  assert (length (firstn k l) = k) as Lk.
  { apply firstn_length_le. clear L N.
    assert (forall p s, startswith p s = true -> length p <= length s) as H.
    { induction p as [|a p IH]; intros [|b s] H; simpl in *; try discriminate;
        try lia. apply andb_true_iff in H as [_ H]. apply IH in H. lia. }
    apply H in S. unfold lower in S. rewrite !length_map in S. exact S. }
  destruct (exec (Seq (Bol false) (Seq (LitI kw) spaces)) (start_at [] l) Some)
    as [st|] eqn:E.
  - pose proof E as E'. apply exec_sound in E' as (st' & Sm & [= ->]).
    destruct Sm as (m1 & [-> _] & m2 & Sk & Sp).
    apply lit_i_sem in Sk as [_ ->]. unfold spaces in Sp.
    destruct Sp as (g & a & Ha & Hg & ->). cbn [after start_at] in *.
    exists g, a. fold k in Ha. splits; auto.
    rewrite (sub_anchored _ l (firstn k l ++ g) _ E); [reflexivity| |].
    + cbn [after]. rewrite <- app_assoc, <- Ha. exact L.
    + intros X. apply app_eq_nil in X as [X _]. rewrite X in Lk. simpl in Lk.
      congruence.
  - exfalso. eapply (exec_complete _ _ _ Some); [|discriminate|exact E].
    exists (start_at [] l). split; [split; reflexivity|].
    eexists. split; [apply lit_i_sem; split; [exact S | reflexivity]|].
    exists [], (skipn k l). splits; reflexivity.
Qed.

(** A line that opens with a keyword and a colon is no word line. *)
Lemma keyword_line_no_word kw l :
  forallb is_alpha kw = true ->
  startswith (kw ++ [":"%char]) (lower l) = true ->
  rmatch word_mnemonic_re l = None.
Proof.
  intros K S. apply rmatch_none. intros m Sm.
  apply word_mnemonic_inv in Sm
    as (w & g1 & g2 & rest & _ & _ & _ & -> & W & G1 & _).
  rewrite no_keyword_prefix in S by assumption. discriminate.
Qed.

Lemma strip_gap g a : forallb is_space g = true -> strip (g ++ a) = strip a.
Proof. intros G. unfold strip. rewrite lstrip_by_app by exact G. reflexivity. Qed.

Lemma startswith_nonempty p s : p <> [] -> startswith p s = true -> s <> [].
Proof. destruct p, s; simpl; congruence. Qed.

Lemma keyword_line_steps c line :
  (startswith (chars "mnemonic:") (lower (strip line)) = true ->
   process_line c line
   = Ok (Cursor (cur_entries c) (current_word c)
           (Some (rstrip_dot (strip (skipn 9 (strip line)))))
           (current_definition c)))
  /\ (startswith (chars "definition:") (lower (strip line)) = true ->
      process_line c line
      = Ok (Cursor (cur_entries c) (current_word c) (current_mnemonic c)
              (Some (rstrip_dot (strip (skipn 11 (strip line))))))).
Proof.
  unfold process_line. set (l := strip line). split; intros S.
  - rewrite (keyword_line_no_word (chars "mnemonic") l eq_refl S), S.
    destruct (sub_keyword "mnemonic:" l S) as (g & a & Hs & Hg & Hsub);
      [discriminate|].
    change (length (chars "mnemonic:")) with 9 in Hs.
    unfold mnemonic_prefix_re. rewrite Hsub, Hs, (strip_gap _ _ Hg).
    destruct l; [discriminate | reflexivity].
  - rewrite (keyword_line_no_word (chars "definition") l eq_refl S), S.
    destruct (sub_keyword "definition:" l S) as (g & a & Hs & Hg & Hsub);
      [discriminate|].
    change (length (chars "definition:")) with 11 in Hs.
    unfold definition_prefix_re. rewrite Hsub, Hs, (strip_gap _ _ Hg).
    assert (startswith (chars "mnemonic:") (lower l) = false) as ->.
    { destruct l as [|x l']; [reflexivity|].
      change (chars "definition:") with ("d"%char :: chars "efinition:") in S.
      change (chars "mnemonic:") with ("m"%char :: chars "nemonic:").
      cbn [lower map startswith] in *.
      apply andb_true_iff in S as [S _]. apply Ascii.eqb_eq in S.
      rewrite <- S. reflexivity. }
    destruct l; [discriminate | reflexivity].
Qed.

(** X9: a line that opens with "Mnemonic:", the letters in either case,
    makes the rest of the line, trimmed and without its trailing periods,
    the mnemonic in progress, and a line that opens with "Definition:"
    makes it the definition in progress; the word in progress, the other
    field and the entries stay as they are, also when no word is in
    progress. *)
Theorem keyword_lines c line :
  (startswith (chars "mnemonic:") (lower (strip line)) = true ->
   process_line c line
   = Ok (Cursor (cur_entries c) (current_word c)
           (Some (rstrip_dot (strip (skipn 9 (strip line)))))
           (current_definition c)))
  /\ (startswith (chars "definition:") (lower (strip line)) = true ->
      process_line c line
      = Ok (Cursor (cur_entries c) (current_word c) (current_mnemonic c)
              (Some (rstrip_dot (strip (skipn 11 (strip line))))))).
Proof.
  apply keyword_line_steps.
Qed.

Lemma keyword_lines_witness :
  process_line (Cursor [] (Some (chars "Zeal")) None None)
               (chars "  DEFINITION:   great energy..  ")
  = Ok (Cursor [] (Some (chars "Zeal")) None
          (Some (rstrip_dot
                   (strip (skipn 11 (strip (chars "  DEFINITION:   great energy..  "))))))).
Proof.
  refine (proj2 (keyword_lines (Cursor [] (Some (chars "Zeal")) None None)
                   (chars "  DEFINITION:   great energy..  ")) _).
  reflexivity.
Defined.

(** X10: a line adds at most one entry to the entries, and only the entry
    that was in progress; a word that is in progress stays in progress or
    gives way to the word of the line. *)
Theorem entries_append_only c line c' :
  process_line c line = Ok c' ->
  (cur_entries c' = cur_entries c
   \/ cur_entries c' = cur_entries c ++ [current_entry c])
  /\ (current_word c <> None -> current_word c' <> None).
Proof.
  intros E. destruct (process_line_cases c line) as (c'' & E' & Cases).
  rewrite E' in E. injection E as ->.
  assert (save_if_worth c = cur_entries c
          \/ save_if_worth c = cur_entries c ++ [current_entry c]) as S.
  { unfold save_if_worth. destruct (worth_saving c); auto. }
  assert (flushed c = cur_entries c
          \/ flushed c = cur_entries c ++ [current_entry c]) as F.
  { unfold flushed. destruct (is_none (current_word c)); auto. }
  destruct Cases as [-> | [(w & mn & od & _ & _ & _ & ->) | [(mn & _ & ->)
    | [(d & _ & ->) | (w & d & _ & _ & ->)]]]]; simpl; split;
    auto; discriminate.
Qed.

Lemma entries_append_only_witness :
  (cur_entries (Cursor [Entry (chars "Zeal") [] []] (Some (chars "Abate")) None
                       (Some (chars "to become less intense")))
   = cur_entries (Cursor [] (Some (chars "Zeal")) None None)
   \/ cur_entries (Cursor [Entry (chars "Zeal") [] []] (Some (chars "Abate")) None
                          (Some (chars "to become less intense")))
      = cur_entries (Cursor [] (Some (chars "Zeal")) None None)
        ++ [current_entry (Cursor [] (Some (chars "Zeal")) None None)])
  /\ (current_word (Cursor [] (Some (chars "Zeal")) None None) <> None ->
      current_word (Cursor [Entry (chars "Zeal") [] []] (Some (chars "Abate")) None
                           (Some (chars "to become less intense"))) <> None).
Proof.
  apply (entries_append_only _ abate_line). vm_compute. reflexivity.
Defined.

Lemma no_word_line_step c line :
  rmatch word_mnemonic_re (strip line) = None ->
  rmatch word_def_re (strip line) = None ->
  exists c', process_line c line = Ok c'
             /\ cur_entries c' = cur_entries c
             /\ current_word c' = current_word c.
Proof.
  intros M W. unfold process_line. destruct (strip line); [eauto|].
  rewrite M, W.
  destruct (startswith _ _); [eauto|]. destruct (startswith _ _); eauto.
Qed.

(** X11: a section in which no line is matched by either word pattern
    yields no entry, whatever "Mnemonic:" and "Definition:" lines it has. *)
Theorem no_word_no_entry content :
  (forall line, In line (split_on newline (strip content)) ->
                rmatch word_mnemonic_re (strip line) = None
                /\ rmatch word_def_re (strip line) = None) ->
  parse_entries content = Ok [].
Proof.
  intros H. unfold parse_entries.
  assert (forall lines c,
            (forall line, In line lines ->
                          rmatch word_mnemonic_re (strip line) = None
                          /\ rmatch word_def_re (strip line) = None) ->
            exists c', process_lines c lines = Ok c'
                       /\ cur_entries c' = cur_entries c
                       /\ current_word c' = current_word c) as L.
  { induction lines as [|line lines IH]; intros c Hl; simpl; [eauto|].
    destruct (Hl line (or_introl eq_refl)) as [M W].
    destruct (no_word_line_step c line M W) as (c1 & -> & E1 & W1). simpl.
    destruct (IH c1) as (c2 & -> & E2 & W2);
      [intros l I; apply Hl; right; exact I|].
    exists c2. splits; congruence. }
  destruct (L _ (Cursor [] None None None) H) as (c' & -> & E & W).
  simpl in *. unfold save_if_worth, worth_saving. rewrite W, E. reflexivity.
Qed.

Lemma no_word_no_entry_witness :
  parse_entries (chars "Mnemonic: a bait" ++ nl ++ chars "Definition: to lessen.")
  = Ok [].
Proof.
  apply no_word_no_entry. intros line I. vm_compute in I.
  destruct I as [<- | [<- | []]]; split; vm_compute; reflexivity.
Defined.

End PlainLineProps.

(** ** Lines that carry a word *)

Module WordLineProps.
Import Re ReFacts PatternFacts LineFacts ParseFacts LineProps PlainLineProps.












(** The anatomy of a line that [word_def_re] matches, and what its
    lookahead saw. *)
Lemma word_def_inv_ahead line m :
  Sem word_def_re (start_at [] line) m ->
  exists w g1 g2 t tail,
    line = w ++ g1 ++ "-"%char :: g2 ++ t ++ tail
    /\ one_or_two_tokens w
    /\ forallb is_space g1 = true /\ forallb is_space g2 = true
    /\ startswith (chars "mnemonic") (lower (t ++ tail)) = false.
Proof.
  unfold word_def_re. intros H. sem_inv.
  do 5 eexists. split; [reflexivity|]. splits; try eassumption.
  match goal with
  | N : forall x, ~ Sem (LitI "Mnemonic") ?st x |- ?g = false =>
      destruct g eqn:S; [|reflexivity]; exfalso;
      eapply N; apply lit_i_sem; split; [exact S | reflexivity]
  end.
Qed.

Lemma word_line_trimmed w g1 g2 text :
  one_or_two_tokens w -> text <> [] -> trimmed text ->
  trimmed (word_line w g1 g2 text) /\ word_line w g1 g2 text <> [].
Proof.
  intros Hw N [_ E]. destruct (tokens_trimmed w Hw) as [B _].
  assert (w <> []) as Nw.
  { destruct Hw as [[? _] | (w1 & g & w2 & -> & [? _] & _)]; auto.
    destruct w1; [congruence | discriminate]. }
  unfold word_line. split; [split|].
  - rewrite begins_app; auto.
  - replace (w ++ g1 ++ "-"%char :: g2 ++ text)
      with ((w ++ g1 ++ "-"%char :: g2) ++ text)
      by (rewrite <- !app_assoc; reflexivity).
    rewrite ends_app; auto.
  - destruct w; [congruence | discriminate].
Qed.

Lemma word_line_no_mnemonic w g1 g2 text :
  one_or_two_tokens w ->
  forallb is_space g1 = true -> forallb is_space g2 = true ->
  trimmed text ->
  startswith (chars "mnemonic:") (lower text) = false ->
  rmatch word_mnemonic_re (word_line w g1 g2 text) = None.
Proof.
  intros Hw H1 H2 [Bt _] N. apply rmatch_none. intros m S.
  apply word_mnemonic_inv in S
    as (w' & g1' & g2' & rest & _ & _ & _ & E & W' & G1' & G2' & S & _).
  apply dash_unique in E as [_ E]; auto.
  assert (begins is_space rest = false) as B.
  { destruct rest as [|x rest]; [reflexivity|].
    change (chars "mnemonic:") with ("m"%char :: chars "nemonic:") in S.
    cbn [lower map startswith] in S.
    apply andb_true_iff in S as [S _]. apply Ascii.eqb_eq in S.
    cbn [begins]. destruct (is_space x) eqn:X; [|reflexivity].
    apply (proj2 (proj2 (proj2 (char_facts x)))) in X.
    rewrite <- S in X. discriminate. }
  assert (lstrip_by is_space (g2 ++ text) = lstrip_by is_space (g2' ++ rest)) as L
      by congruence.
  rewrite (lstrip_by_app _ g2), (lstrip_by_app _ g2'), (lstrip_by_id _ rest),
    (lstrip_by_id _ text) in L by assumption.
  congruence.
Qed.






(** X15: directly after the dash, a text that begins with "Mnemonic" and
    not with "Mnemonic:" makes the line one that no pattern matches: the
    line changes nothing. *)
Theorem word_line_mnemonic_no_gap w g1 text c :
  one_or_two_tokens w -> forallb is_space g1 = true ->
  trimmed text ->
  startswith (chars "mnemonic") (lower text) = true ->
  startswith (chars "mnemonic:") (lower text) = false ->
  process_line c (w ++ g1 ++ "-"%char :: text) = Ok c.
Proof.
  intros Hw H1 Tr S N.
  assert (text <> []) as Nt by (destruct text; [discriminate | discriminate]).
  destruct (word_line_trimmed w g1 [] text Hw Nt Tr) as [TL NL].
  pose proof (word_line_no_mnemonic w g1 [] text Hw H1 eq_refl Tr N) as NM.
  pose proof (no_keyword_prefix (chars "mnemonic") w g1 text eq_refl Hw H1) as K1.
  pose proof (no_keyword_prefix (chars "definition") w g1 text eq_refl Hw H1) as K2.
  change (chars "mnemonic" ++ [":"%char]) with (chars "mnemonic:") in K1.
  change (chars "definition" ++ [":"%char]) with (chars "definition:") in K2.
  assert (rmatch word_def_re (word_line w g1 [] text) = None) as ND.
  { apply rmatch_none. intros m Sm. apply word_def_inv_ahead in Sm
      as (w' & g1' & g2' & t & tail & E & W' & G1' & G2' & A).
    unfold word_line in E. apply dash_unique in E as [_ E]; auto.
    cbn [app] in E. destruct Tr as [Bt _].
    destruct g2' as [|x g2'].
    - cbn [app] in E. rewrite <- E in A. congruence.
    - rewrite E in Bt. cbn [app begins forallb] in *.
      apply andb_true_iff in G2' as [X _]. congruence. }
  unfold word_line in *. cbn [app] in *.
  unfold process_line. rewrite (strip_id _ TL).
  destruct (w ++ g1 ++ "-"%char :: text) as [|a s]; [congruence|].
  rewrite NM, K1, K2, ND. reflexivity.
Qed.

Lemma word_line_mnemonic_no_gap_witness :
  process_line (Cursor [] None None None) (chars "Zeal -Mnemonic devices.")
  = Ok (Cursor [] None None None).
Proof.
  refine (word_line_mnemonic_no_gap (chars "Zeal") (chars " ")
            (chars "Mnemonic devices.") (Cursor [] None None None) _ _ _ _ _).
  - left. split; [discriminate | reflexivity].
  - reflexivity.
  - split; reflexivity.
  - reflexivity.
  - reflexivity.
Defined.

End WordLineProps.

(** ** The preamble stripping *)

Module CleanProps.
Import Re ReFacts ParseFacts.

Lemma subseq_refl s : subseq s s.
Proof. induction s; constructor; assumption. Qed.

Lemma subseq_trans s t u : subseq s t -> subseq t u -> subseq s u.
Proof.
  intros H1 H2. revert s H1.
  induction H2 as [|c t u H2 IH|c t u H2 IH]; intros s H1.
  - exact H1.
  - inversion H1; subst; constructor; auto.
  - constructor. auto.
Qed.

Lemma subseq_app_l p s t : subseq s t -> subseq (p ++ s) (p ++ t).
Proof. intros H. induction p; simpl; [|constructor]; assumption. Qed.

Lemma subseq_drop_l p s t : subseq s t -> subseq s (p ++ t).
Proof. intros H. induction p; simpl; [|constructor]; assumption. Qed.

Lemma subseq_drop_r s t : subseq s (s ++ t).
Proof.
  induction s as [|c s IH]; simpl; [|constructor; exact IH].
  induction t; constructor; assumption.
Qed.

Lemma subseq_strip s : subseq (strip s) s.
Proof.
  unfold strip.
  destruct (lstrip_by_split is_space s) as (t & E & _).
  destruct (rstrip_by_split is_space (lstrip_by is_space s)) as (u & E' & _).
  rewrite E at 2. apply subseq_drop_l. rewrite E' at 2. apply subseq_drop_r.
Qed.

(** What [scan] leaves between and after the matches is the text with the
    matches left out. *)
Lemma scan_subseq r a : forall b skip seg,
  subseq (concat (map fst (fst (scan r b a skip seg)))
          ++ snd (scan r b a skip seg))
         (rev seg ++ a).
Proof.
  induction a as [|c a IH]; intros b skip seg.
  - destruct skip; simpl; [|rewrite app_nil_r; apply subseq_refl].
    destruct (exec r (start_at b []) Some); simpl.
    + destruct (advanced [] m); simpl; rewrite !app_nil_r; apply subseq_refl.
    + rewrite app_nil_r. apply subseq_refl.
  - destruct skip.
    + cbn [scan].
      destruct (exec r (start_at b (c :: a)) Some) as [st|].
      * destruct (advanced (c :: a) st) as [|n].
        { match goal with |- context [exec r ?s ?k] => destruct (exec r s k) end;
            cbn [fst snd push map concat]; rewrite <- ?app_assoc;
            apply subseq_app_l; cbn [app].
          - constructor. apply (IH _ _ []).
          - specialize (IH (c :: b) 0 [c]). cbn [rev app] in IH. exact IH. }
        cbn [fst snd push map concat]. rewrite <- app_assoc.
        apply subseq_app_l. constructor. apply (IH _ _ []).
      * specialize (IH (c :: b) 0 (c :: seg)). cbn [rev] in IH.
        rewrite <- app_assoc in IH. exact IH.
    + cbn [scan]. apply subseq_trans with (rev seg ++ a); [apply IH|].
      apply subseq_app_l. constructor. apply subseq_refl.
Qed.

Lemma sub_subseq r s : subseq (sub r [] s) s.
Proof.
  unfold sub.
  replace (flat_map (fun m => fst m ++ []) (fst (scan r [] s 0 [])))
    with (concat (map fst (fst (scan r [] s 0 [])))).
  - apply (scan_subseq r s [] 0 []).
  - rewrite flat_map_concat_map. f_equal. apply map_ext.
    intros m. symmetry. apply app_nil_r.
Qed.

Lemma sub_no_match r s : search r s = None -> sub r [] s = s.
Proof.
  intros H. unfold sub, search in *. rewrite (scan_no_match _ _ _ _ H).
  reflexivity.
Qed.

(** X16: the preamble stripping only leaves characters out: the cleaned
    text is the text without some of its characters, in their order; and
    when none of the opener patterns matches anywhere, it is the text
    trimmed of whitespace. *)
Theorem cleaning_only_deletes text :
  subseq (clean_response_text text) text
  /\ ((forall pattern, In pattern patterns_to_remove ->
                       search pattern text = None) ->
      clean_response_text text = strip text).
Proof.
  unfold clean_response_text. split.
  - apply subseq_trans with (fold_left (fun t p => sub p [] t) patterns_to_remove text);
      [apply subseq_strip|].
    generalize patterns_to_remove. intros ps. revert text.
    induction ps as [|p ps IH]; intros text; simpl; [apply subseq_refl|].
    apply subseq_trans with (sub p [] text); [apply IH | apply sub_subseq].
  - generalize patterns_to_remove. intros ps H. f_equal.
    induction ps as [|p ps IH]; simpl; [reflexivity|].
    rewrite sub_no_match by (apply H; left; reflexivity).
    apply IH. intros q I. apply H. right. exact I.
Qed.

Lemma cleaning_only_deletes_witness :
  clean_response_text (chars "  Group 1 ") = strip (chars "  Group 1 ").
Proof.
  refine (proj2 (cleaning_only_deletes (chars "  Group 1 ")) _).
  intros pattern I. unfold patterns_to_remove in I. cbn [In] in I.
  repeat (destruct I as [<- | I]; [vm_compute; reflexivity|]). destruct I.
Defined.

End CleanProps.

(** ** [parse_vocab_entry] *)

Module EntryProps.
Import Re ReFacts PatternFacts LineFacts.

Lemma forallb_strip q s : forallb q s = true -> forallb q (strip s) = true.
Proof.
  intros H. unfold strip.
  destruct (lstrip_by_split is_space s) as (t & E & _).
  destruct (rstrip_by_split is_space (lstrip_by is_space s)) as (u & E' & _).
  rewrite E, E', !forallb_app in H.
  repeat (apply andb_true_iff in H as [? H] || apply andb_true_iff in H). 
  tauto.
Qed.

Lemma strip_nonempty s : begins is_space s = false -> s <> [] -> strip s <> [].
Proof.
  intros B N E. unfold strip in E. rewrite (lstrip_by_id _ _ B) in E.
  destruct (rstrip_by_split is_space s) as (t & S & F). rewrite E in S.
  simpl in S. subst t. destruct s as [|c s]; [congruence|].
  simpl in *. rewrite B in F. discriminate.
Qed.

Lemma entry_with_definition_inv line m :
  Sem entry_with_definition_re (start_at [] line) m ->
  exists w rest t2 t3,
    line = w ++ rest /\ run alpha_or_space w
    /\ caps m = [(3, t3); (2, t2); (1, w)].
Proof.
  unfold entry_with_definition_re. intros H. sem_inv.
  match goal with H : Sem (Opt _) _ _ |- _ => destruct H as [H | ->] end;
    sem_inv; do 4 eexists; (split; [reflexivity|]);
    split; eassumption || reflexivity.
Qed.

Lemma entry_mnemonic_inv line m :
  Sem entry_mnemonic_re (start_at [] line) m ->
  exists w rest t2,
    line = w ++ rest /\ run alpha_or_space w /\ caps m = [(2, t2); (1, w)].
Proof.
  unfold entry_mnemonic_re. intros H. sem_inv.
  do 3 eexists. split; [reflexivity|]. split; eassumption || reflexivity.
Qed.

Lemma group_strip_of_3 m t3 t2 w :
  caps m = [(3, t3); (2, t2); (1, w)] ->
  group_strip 1 m = Ok (strip w) /\ group_strip 2 m = Ok (strip t2)
  /\ group_strip 3 m = Ok (strip t3).
Proof. unfold group_strip, group. intros ->. repeat split. Qed.

Lemma entry_word_ok line w rest :
  strip line = w ++ rest -> run alpha_or_space w ->
  strip w <> [] /\ forallb alpha_or_space (strip w) = true /\ trimmed (strip w).
Proof.
  intros E [N F]. splits.
  - apply strip_nonempty; [|exact N].
    pose proof (begins_strip line) as B. rewrite E, begins_app in B; auto.
  - apply forallb_strip, F.
  - apply strip_trimmed.
Qed.

(** Every line that the mnemonic pattern of [parse_response] matches is
    matched by the second pattern of [parse_vocab_entry]. *)
Lemma entry_mnemonic_covers line m :
  rmatch word_mnemonic_re line = Some m ->
  exists m', rmatch entry_mnemonic_re line = Some m'.
Proof.
  intros M. apply rmatch_sound, word_mnemonic_inv in M
    as (w & g1 & g2 & rest & g3 & t & tail & -> & W & G1 & G2 & S & Sk & G3
        & T & E & _).
  apply rmatch_complete with
    (m := MState (rev t ++ rev g3 ++ rev (firstn 9 rest) ++ rev g2
                  ++ "-"%char :: rev g1 ++ rev w ++ [])
                 tail [(2, t); (1, w)]).
  unfold entry_mnemonic_re. cbn [cat Sem].
  set (r1 := g1 ++ "-"%char :: g2 ++ rest).
  exists (start_at [] (w ++ r1)). split; [split; reflexivity|].
  exists (MState (rev w ++ []) r1 [(1, w)]). split.
  { exists (MState (rev w ++ []) r1 []). split.
    - apply many1_sem. exists w, r1. splits; [|reflexivity|reflexivity].
      split; [|apply tokens_chars, W].
      destruct W as [[? _] | (w1 & g & w2 & -> & [? _] & _)]; auto.
      destruct w1; [congruence | discriminate].
    - unfold set_group, start_at. cbn [before after caps].
      rewrite consumed_mk. reflexivity. }
  eexists. split.
  { exists g1, ("-"%char :: g2 ++ rest). splits; [reflexivity | exact G1 | reflexivity]. }
  eexists. split.
  { exists "-"%char, (g2 ++ rest). splits; reflexivity. }
  eexists. split.
  { exists g2, rest. splits; [reflexivity | exact G2 | reflexivity]. }
  eexists. split.
  { apply lit_i_sem. cbn [after]. split; [exact S | reflexivity]. }
  cbn [before after caps]. change (length (chars "Mnemonic:")) with 9.
  rewrite Sk.
  eexists. split.
  { exists g3, (t ++ tail). splits; [reflexivity | exact G3 | reflexivity]. }
  eexists. split.
  { eexists. split.
    - apply many1_sem. exists t, tail. splits; [exact T | reflexivity | reflexivity].
    - unfold set_group. cbn [before after caps]. rewrite consumed_mk.
      reflexivity. }
  split; [|apply at_eol_end; exact E].
  reflexivity.
Qed.

(** X17: [parse_vocab_entry] raises on no line.  The entry it returns has
    a word that is not empty, of ASCII letters and whitespace, without
    whitespace at its ends, and a mnemonic and a definition that are
    trimmed texts without their trailing periods; and it returns [None]
    on no line that the mnemonic pattern of [parse_response] matches. *)
Theorem parse_vocab_entry_ok line :
  exists r,
    parse_vocab_entry line = Ok r
    /\ match r with
       | Some e =>
           word e <> [] /\ forallb alpha_or_space (word e) = true
           /\ trimmed (word e)
           /\ field_ok (mnemonic e) /\ field_ok (definition e)
       | None => rmatch word_mnemonic_re (strip line) = None
       end.
Proof.
  unfold parse_vocab_entry.
  destruct (rmatch entry_with_definition_re (strip line)) as [m|] eqn:M1.
  - apply rmatch_sound, entry_with_definition_inv in M1
      as (w & rest & t2 & t3 & E & R & C).
    destruct (group_strip_of_3 _ _ _ _ C) as (-> & -> & ->). cbn [bind].
    eexists. split; [reflexivity|]. cbn [word mnemonic definition].
    destruct (entry_word_ok line w rest E R) as (? & ? & ?).
    splits; auto using field_ok_strip.
  - destruct (rmatch entry_mnemonic_re (strip line)) as [m|] eqn:M2.
    + apply rmatch_sound, entry_mnemonic_inv in M2
        as (w & rest & t2 & E & R & C).
      rewrite (group_strip_1' _ _ _ C), (group_strip_2 _ _ _ C). cbn [bind].
      eexists. split; [reflexivity|]. cbn [word mnemonic definition].
      destruct (entry_word_ok line w rest E R) as (? & ? & ?).
      splits; auto using field_ok_strip, field_ok_nil.
    + eexists. split; [reflexivity|]. cbn beta iota.
      destruct (rmatch word_mnemonic_re (strip line)) as [m|] eqn:M3; auto.
      apply entry_mnemonic_covers in M3 as (m' & M3). congruence.
Qed.

End EntryProps.

(** ** A word with mnemonic and definition on one line *)

Module SameLineProps.
Import Re ReFacts PatternFacts LineFacts ParseFacts LineProps PlainLineProps
  WordLineProps.

(** *** The matcher on a literal, a greedy and a lazy run *)








(** *** The keyword "Definition:" *)








(** *** The definition: the match of [def_tail_re] *)


(** *** Where [def_tail_re] is found *)



(** *** The mnemonic: what [def_cut_re] cuts off *)





(** *** The line *)




End SameLineProps.
